(** * Pseudo-Hilbert curve generator ([main.c]): model and properties

    A shallow embedding of [main.c].  The geometry and the curve builder are
    written once over the coordinate type, as the source does with
    [typedef double space_pos_t], and instantiated twice:

    - [double_pos]: IEEE 754 binary64 (Rocq's primitive floats), the type the
      source picks;
    - [exact_pos]: canonical rationals, the arithmetic without rounding.

    Machine integers follow the LP64 data model the source assumes ([int] is
    32 bits, [size_t] is 64 bits).  Behaviour that ISO C leaves undefined is an
    explicit [Undefined] outcome.  [malloc] is taken to succeed. *)

From Stdlib Require Import ZArith QArith Qcanon Qpower List Bool Lia Lqa.
From Stdlib Require Import PrimFloat FloatOps SpecFloat FloatAxioms Uint63.
From Stdlib Require Import Strings.Byte.
Import ListNotations.

Local Open Scope Z_scope.

(** ** Outcomes of a C computation *)

Inductive fault : Type :=
| InvalidShift   (* shift count not below the width, or result not representable *)
| OutOfBounds    (* access past the end of a buffer *)
| NullPointer    (* store through a null pointer *)
| OutOfFuel.     (* the model's recursion bound was reached; never happens, see
                    [hilbert_create_total] *)

Inductive outcome (A : Type) : Type :=
| Done (a : A)
| Undefined (f : fault).
Arguments Done {A} a.
Arguments Undefined {A} f.

Definition bind {A B : Type} (c : outcome A) (k : A -> outcome B) : outcome B :=
  match c with
  | Done a => k a
  | Undefined f => Undefined f
  end.

Declare Scope c_scope.
Delimit Scope c_scope with c.
Notation "v <- c ;; k" := (bind c (fun v => k))
  (at level 61, c at next level, right associativity) : c_scope.
Local Open Scope c_scope.

(** ** GEOMETRY *)

(** [typedef double space_pos_t]: the operations and literals the source
    applies to coordinates. *)
Class SpacePos (space_pos_t : Type) : Type := {
  pos_sub : space_pos_t -> space_pos_t -> space_pos_t;   (* a -= b *)
  pos_mul : space_pos_t -> space_pos_t -> space_pos_t;   (* a *= b *)
  pos_add : space_pos_t -> space_pos_t -> space_pos_t;   (* a += b *)
  lit_m1 : space_pos_t;     (* -1 (an int, converted) *)
  lit_0 : space_pos_t;      (* 0.0 *)
  lit_025 : space_pos_t;    (* 0.25 *)
  lit_05 : space_pos_t;     (* 0.5 *)
  lit_075 : space_pos_t;    (* 0.75 *)
  lit_1 : space_pos_t       (* 1.0 *)
}.

#[export] Instance double_pos : SpacePos float := {
  pos_sub := PrimFloat.sub;
  pos_mul := PrimFloat.mul;
  pos_add := PrimFloat.add;
  lit_m1 := (-1)%float;
  lit_0 := 0%float;
  lit_025 := 0.25%float;
  lit_05 := 0.5%float;
  lit_075 := 0.75%float;
  lit_1 := 1%float
}.

#[export] Instance exact_pos : SpacePos Qc := {
  pos_sub := Qcminus;
  pos_mul := Qcmult;
  pos_add := Qcplus;
  lit_m1 := Q2Qc (-1);
  lit_0 := Q2Qc 0;
  lit_025 := Q2Qc (1 # 4);
  lit_05 := Q2Qc (1 # 2);
  lit_075 := Q2Qc (3 # 4);
  lit_1 := Q2Qc 1
}.

(** [struct space_vec2 { space_pos_t x, y; }] with its initialiser macro. *)
Record space_vec2 (space_pos_t : Type) : Type :=
  POINT_AT { x : space_pos_t; y : space_pos_t }.
Arguments POINT_AT {space_pos_t} x y.
Arguments x {space_pos_t} s.
Arguments y {space_pos_t} s.

(** The member a macro argument names ([neg_mult] below). *)
Inductive member : Type := member_x | member_y.

Section Geometry.
Context {space_pos_t : Type} {pos_ops : SpacePos space_pos_t}.

Local Abbreviation vec := (space_vec2 space_pos_t).

(** [SPACE_SWAP_POINT(point)] *)
Definition SPACE_SWAP_POINT (point : vec) : vec :=
  let tmp := x point in
  POINT_AT (y point) tmp.

(** [SPACE_OP_POINTS(pointA, op, pointB)] *)
Definition SPACE_OP_POINTS (pointA : vec)
    (op : space_pos_t -> space_pos_t -> space_pos_t) (pointB : vec) : vec :=
  POINT_AT (op (x pointA) (x pointB)) (op (y pointA) (y pointB)).

(** [SPACE_REFLECT_POINT(val, origin)] *)
Definition SPACE_REFLECT_POINT (val origin : space_pos_t) : space_pos_t :=
  let val := pos_sub val origin in
  let val := pos_mul val lit_m1 in
  pos_add val origin.

(** [point.neg_mult *= -1] *)
Definition negate_member (neg_mult : member) (point : vec) : vec :=
  match neg_mult with
  | member_x => POINT_AT (pos_mul (x point) lit_m1) (y point)
  | member_y => POINT_AT (x point) (pos_mul (y point) lit_m1)
  end.

(** [SPACE_ROTATE_POINT_ABOUT_ORIGIN(point, neg_mult, origin)] *)
Definition SPACE_ROTATE_POINT_ABOUT_ORIGIN
    (point : vec) (neg_mult : member) (origin : vec) : vec :=
  let point := SPACE_OP_POINTS point pos_sub origin in
  let point := SPACE_SWAP_POINT point in
  let point := negate_member neg_mult point in
  SPACE_OP_POINTS point pos_add origin.

(** [for (size_t i = 0; i < len; i++) arr[i] = body(arr[i]);]
    over the buffer [arr]; reading past its end is undefined. *)
Fixpoint for_each (body : vec -> vec) (arr : list vec) (len : nat) {struct len}
    : outcome (list vec) :=
  match len with
  | O => Done arr
  | S len' =>
      match arr with
      | [] => Undefined OutOfBounds
      | p :: rest =>
          rest' <- for_each body rest len' ;;
          Done (body p :: rest')
      end
  end.

(** The loop bodies of the five array operations, on one element. *)
Definition reflect_y_point (origin : space_pos_t) (p : vec) : vec :=
  POINT_AT (SPACE_REFLECT_POINT (x p) origin) (y p).

Definition reflect_x_point (origin : space_pos_t) (p : vec) : vec :=
  POINT_AT (x p) (SPACE_REFLECT_POINT (y p) origin).

Definition scale_point (scale_p origin : vec) (p : vec) : vec :=
  let p := SPACE_OP_POINTS p pos_sub origin in
  let p := SPACE_OP_POINTS p pos_mul scale_p in
  SPACE_OP_POINTS p pos_add origin.

Definition space_reflect_y (arr : list vec) (len : Z) (origin : space_pos_t)
    : outcome (list vec) :=
  for_each (reflect_y_point origin) arr (Z.to_nat len).

Definition space_reflect_x (arr : list vec) (len : Z) (origin : space_pos_t)
    : outcome (list vec) :=
  for_each (reflect_x_point origin) arr (Z.to_nat len).

Definition space_rotate_c (arr : list vec) (len : Z) (origin : vec)
    : outcome (list vec) :=
  for_each (fun p => SPACE_ROTATE_POINT_ABOUT_ORIGIN p member_x origin)
           arr (Z.to_nat len).

Definition space_rotate_cc (arr : list vec) (len : Z) (origin : vec)
    : outcome (list vec) :=
  for_each (fun p => SPACE_ROTATE_POINT_ABOUT_ORIGIN p member_y origin)
           arr (Z.to_nat len).

Definition space_scale (arr : list vec) (len : Z) (scale : space_pos_t)
    (origin : vec) : outcome (list vec) :=
  let scale_p := POINT_AT scale scale in
  for_each (scale_point scale_p origin) arr (Z.to_nat len).

End Geometry.

(** ** Machine integers and buffers *)

(** [(size_t) z]: reduction modulo [2^64]. *)
Definition to_size_t (z : Z) : Z := z mod 2 ^ 64.

(** [sizeof(struct space_vec2)]: two doubles. *)
Definition sizeof_space_vec2 : Z := 16.

(** [1 << count] where [1] is an [int]: defined when the count is below the
    width of [int] and [2^count] is representable in it. *)
Definition int_shl_1 (count : Z) : outcome Z :=
  if (0 <=? count) && (count <? 31)
  then Done (Z.shiftl 1 count)
  else Undefined InvalidShift.

(** [#define HILBERT_NUM_POINTS(order) (size_t) (1 << ((size_t) order * 2))] *)
Definition HILBERT_NUM_POINTS (order : Z) : outcome Z :=
  v <- int_shl_1 (to_size_t (to_size_t order * 2)) ;;
  Done (to_size_t v).

(** [for (size_t i = start; i < start + count; i++) s = body(i, s);] *)
Fixpoint for_range {S : Type} (count : nat) (i : Z)
    (body : Z -> S -> outcome S) (s : S) : outcome S :=
  match count with
  | O => Done s
  | Datatypes.S count' =>
      s' <- body i s ;;
      for_range count' (i + 1) body s'
  end.

Section Buffers.
Context {A : Type}.

(** [malloc(bytes)] for a buffer of 16-byte elements; [junk] is what the fresh
    memory holds. *)
Definition malloc (junk : A) (bytes : Z) : list A :=
  repeat junk (Z.to_nat (bytes / sizeof_space_vec2)).

(** [memcpy(&dst[off], src, bytes)]: undefined when it reads past [src] or
    writes past [dst]. *)
Definition memcpy (dst : list A) (off : Z) (src : list A) (bytes : Z)
    : outcome (list A) :=
  let n := Z.to_nat (bytes / sizeof_space_vec2) in
  let o := Z.to_nat off in
  if ((n <=? length src) && (o + n <=? length dst))%nat
  then Done (firstn o dst ++ firstn n src ++ skipn (o + n) dst)
  else Undefined OutOfBounds.

(** [arr[i]] *)
Definition index (arr : list A) (i : Z) : outcome A :=
  match nth_error arr (Z.to_nat i) with
  | Some a => Done a
  | None => Undefined OutOfBounds
  end.

End Buffers.

(** ** HILBERT CURVE *)

Section Hilbert.
Context {space_pos_t : Type} {pos_ops : SpacePos space_pos_t}.

Local Abbreviation vec := (space_vec2 space_pos_t).

(** What freshly allocated memory holds. *)
Variable junk : vec.

Definition o1_hilbert : list vec :=
  [ POINT_AT lit_025 lit_075;   (* bottom left *)
    POINT_AT lit_025 lit_025;   (* top left *)
    POINT_AT lit_075 lit_025;   (* top right *)
    POINT_AT lit_075 lit_075 ]. (* bottom right *)

Definition scale_origins : list vec :=
  [ POINT_AT lit_0 lit_1;   (* bottom left *)
    POINT_AT lit_0 lit_0;   (* top left *)
    POINT_AT lit_1 lit_0;   (* top right *)
    POINT_AT lit_1 lit_1 ]. (* bottom right *)

(** What a call leaves behind: the value returned and the pointer stored in
    [*out] ([None] is [NULL]). *)
Definition hilbert_result : Type := (Z * option (list vec))%type.

(** [*out = v; return ret;] *)
Definition store_and_return (out_is_null : bool) (v : option (list vec))
    (ret : Z) : outcome hilbert_result :=
  if out_is_null then Undefined NullPointer else Done (ret, v).

(** The body of the loop over the four quadrants. *)
Definition quadrant_step (lo : list vec) (lo_points lo_size : Z)
    (center_point : vec) (i : Z) (arr : list vec) : outcome (list vec) :=
  work <- memcpy (malloc junk lo_size) 0 lo lo_size ;;
  work <- (if i =? 0 then
             work <- space_reflect_y work lo_points lit_05 ;;
             space_rotate_c work lo_points center_point
           else if i =? 4 then
             work <- space_reflect_y work lo_points lit_05 ;;
             space_rotate_cc work lo_points center_point
           else Done work) ;;
  origin <- index scale_origins i ;;
  work <- space_scale work lo_points lit_05 origin ;;
  memcpy arr (to_size_t (lo_points * i)) work
         (to_size_t (lo_points * sizeof_space_vec2)).

(** [hilbert_create(order, out)]; [out_is_null] says whether [out == NULL].
    [fuel] bounds the depth of the recursion. *)
Fixpoint hilbert_create_rec (fuel : nat) (order : Z) (out_is_null : bool)
    : outcome hilbert_result :=
  match fuel with
  | O => Undefined OutOfFuel
  | Datatypes.S fuel' =>
      if out_is_null && (order >=? 1) then
        (* fail: *)
        store_and_return out_is_null None (to_size_t (-1))
      else
        num_points <- HILBERT_NUM_POINTS order ;;
        let arr := malloc junk (to_size_t (num_points * sizeof_space_vec2)) in
        if order =? 1 then
          arr <- memcpy arr 0 o1_hilbert
                   (to_size_t (num_points * sizeof_space_vec2)) ;;
          store_and_return out_is_null (Some arr) num_points
        else
          (* size_t lo_points = hilbert_create(order - 1, &lo); *)
          r <- hilbert_create_rec fuel' (order - 1) false ;;
          let lo_points := fst r in
          match snd r with
          | None => Undefined NullPointer
          | Some lo =>
              let lo_size := to_size_t (lo_points * sizeof_space_vec2) in
              let center_point := POINT_AT lit_05 lit_05 in
              arr <- for_range 4 0
                       (quadrant_step lo lo_points lo_size center_point) arr ;;
              store_and_return out_is_null (Some arr) num_points
          end
  end.

(** The recursion descends one order per call and stops at order 1, or at
    once where the shift is undefined. *)
Definition hilbert_create (order : Z) (out_is_null : bool)
    : outcome hilbert_result :=
  hilbert_create_rec (S (S (Z.to_nat order))) order out_is_null.

End Hilbert.

(** ** MAIN: the binary writer *)

Section Writer.
Context {A : Type}.

(** The bytes of one array element in memory ([sizeof(struct space_vec2)] of
    them, in the machine's byte order). *)
Variable bytes_of : A -> list byte.

(** A stream is the bytes written to it so far. *)
Definition FILE : Type := list byte.

(** [static size_t max_write = 65536] *)
Definition max_write : Z := 65536.

(** [fwrite(&hc[i], sizeof(struct space_vec2), to_write, fp)], taken to write
    every element it is given; reading past the end of [hc] is undefined. *)
Definition fwrite (hc : list A) (i to_write : Z) (fp : FILE) : outcome FILE :=
  if (Z.to_nat i + Z.to_nat to_write <=? length hc)%nat
  then Done (fp ++ flat_map bytes_of
                     (firstn (Z.to_nat to_write) (skipn (Z.to_nat i) hc)))
  else Undefined OutOfBounds.

(** The comparisons of C, as [int] 0 or 1. *)
Definition c_gt (a b : Z) : Z := if a >? b then 1 else 0.
Definition c_le (a b : Z) : Z := if a <=? b then 1 else 0.

(** [for (size_t i = 0; i < len; i += max_write) { ... }]; [fuel] bounds the
    number of iterations. *)
Fixpoint write_loop (fuel : nat) (hc : list A) (len i : Z) (fp : FILE)
    : outcome FILE :=
  if i <? len then
    match fuel with
    | O => Undefined OutOfFuel
    | S fuel' =>
        let write_left := to_size_t (len - i) in
        let to_write :=
          to_size_t (to_size_t (c_gt write_left max_write * max_write) +
                     to_size_t (c_le write_left max_write * write_left)) in
        fp <- fwrite hc i to_write fp ;;
        write_loop fuel' hc len (to_size_t (i + max_write)) fp
    end
  else Done fp.

(** [write_hilbert_curve(hc, len, fp)]: every iteration advances [i] by
    [max_write], so [len / max_write + 1] iterations are enough. *)
Definition write_hilbert_curve (hc : list A) (len : Z) (fp : FILE)
    : outcome FILE :=
  write_loop (S (Z.to_nat (len / max_write))) hc len 0 fp.

End Writer.

(** ** The curve as a structural recursion

    What the loop of [hilbert_create] makes of the lower-order curve, written
    without buffers; [hilbert_create_rec_curve] below proves that the code
    computes it. *)

Section CurveShape.
Context {space_pos_t : Type} {pos_ops : SpacePos space_pos_t}.

Local Abbreviation vec := (space_vec2 space_pos_t).

(** [struct space_vec2 center_point = POINT_AT(0.5, 0.5)] *)
Definition center_point : vec := POINT_AT lit_05 lit_05.

(** Iteration [i] of the loop, on one point of the lower-order curve: the
    transformations guarded by [i == 0] and [i == 4], then the scaling about
    [scale_origins[i]]. *)
Definition quadrant_point (i : nat) (p : vec) : vec :=
  let p := match i with
           | 0%nat => SPACE_ROTATE_POINT_ABOUT_ORIGIN
                        (reflect_y_point lit_05 p) member_x center_point
           | 4%nat => SPACE_ROTATE_POINT_ABOUT_ORIGIN
                        (reflect_y_point lit_05 p) member_y center_point
           | _ => p
           end in
  scale_point (POINT_AT lit_05 lit_05) (nth i scale_origins p) p.

(** The curve of order [n + 1]. *)
Fixpoint order_curve (n : nat) : list vec :=
  match n with
  | O => o1_hilbert
  | S n' =>
      let lo := order_curve n' in
      map (quadrant_point 0) lo ++ map (quadrant_point 1) lo ++
      map (quadrant_point 2) lo ++ map (quadrant_point 3) lo
  end.

End CurveShape.

(** ** The operations in coordinates

    The rotations written point by point: with [d = p - origin], the point
    moves to [origin] plus [d] swapped, one coordinate negated after the
    swap. *)

Section Coordinates.
Context {space_pos_t : Type} {pos_ops : SpacePos space_pos_t}.

Local Abbreviation vec := (space_vec2 space_pos_t).

Definition rotated (negated : member) (origin p : vec) : vec :=
  let dx := pos_sub (x p) (x origin) in
  let dy := pos_sub (y p) (y origin) in
  match negated with
  | member_x => POINT_AT (pos_add (pos_mul dy lit_m1) (x origin))
                         (pos_add dx (y origin))
  | member_y => POINT_AT (pos_add dy (x origin))
                         (pos_add (pos_mul dx lit_m1) (y origin))
  end.

End Coordinates.

(** ** The blocks of a curve, built with the array operations *)

Section Blocks.
Context {space_pos_t : Type} {pos_ops : SpacePos space_pos_t}.

Local Abbreviation vec := (space_vec2 space_pos_t).

(** A copy of [lo] reflected about [x = 0.5], rotated about the centre
    (clockwise or counter-clockwise) and scaled by 0.5 about [origin]. *)
Definition block_reflected_rotated (clockwise : bool) (origin : vec)
    (lo : list vec) : outcome (list vec) :=
  let len := Z.of_nat (length lo) in
  w <- space_reflect_y lo len lit_05 ;;
  w <- (if clockwise then space_rotate_c w len center_point
        else space_rotate_cc w len center_point) ;;
  space_scale w len lit_05 origin.

(** A copy of [lo] scaled by 0.5 about [origin], with no other transform. *)
Definition block_scaled (origin : vec) (lo : list vec) : outcome (list vec) :=
  space_scale lo (Z.of_nat (length lo)) lit_05 origin.

End Blocks.

(** ** Regions of the unit square, in exact arithmetic *)

Definition in_unit_square (p : space_vec2 Qc) : Prop :=
  (Q2Qc 0 <= x p)%Qc /\ (x p <= Q2Qc 1)%Qc /\
  (Q2Qc 0 <= y p)%Qc /\ (y p <= Q2Qc 1)%Qc.

Definition strictly_inside (p : space_vec2 Qc) : Prop :=
  (Q2Qc 0 < x p)%Qc /\ (x p < Q2Qc 1)%Qc /\
  (Q2Qc 0 < y p)%Qc /\ (y p < Q2Qc 1)%Qc.

(** The open quadrants, numbered as the loop visits them: bottom left, top
    left, top right, bottom right (y grows downwards). *)
Definition in_quadrant (i : nat) (p : space_vec2 Qc) : Prop :=
  strictly_inside p /\
  match i with
  | 0%nat => (x p < Q2Qc (1 # 2))%Qc /\ (Q2Qc (1 # 2) < y p)%Qc
  | 1%nat => (x p < Q2Qc (1 # 2))%Qc /\ (y p < Q2Qc (1 # 2))%Qc
  | 2%nat => (Q2Qc (1 # 2) < x p)%Qc /\ (y p < Q2Qc (1 # 2))%Qc
  | _ => (Q2Qc (1 # 2) < x p)%Qc /\ (Q2Qc (1 # 2) < y p)%Qc
  end.

(** ** The coordinates of the curve, one at a time

    The loop never mixes the two coordinates of a point except by swapping
    them, so each coordinate of [quadrant_point i p] is a function of one
    coordinate of [p]. *)

Section CoordinateMaps.
Context {space_pos_t : Type} {pos_ops : SpacePos space_pos_t}.

(** [space_scale] by 0.5 about an origin whose coordinate is [origin]. *)
Definition scale_coord (origin v : space_pos_t) : space_pos_t :=
  pos_add (pos_mul (pos_sub v origin) lit_05) origin.

(** The x coordinate after [space_reflect_y] about 0.5 and [space_rotate_c]
    about the centre, from the y coordinate before. *)
Definition reflect_rotate_x (b : space_pos_t) : space_pos_t :=
  pos_add (pos_mul (pos_sub b lit_05) lit_m1) lit_05.

(** The y coordinate after the same two operations, from the x coordinate
    before. *)
Definition reflect_rotate_y (a : space_pos_t) : space_pos_t :=
  pos_add (pos_sub (SPACE_REFLECT_POINT a lit_05) lit_05) lit_05.

End CoordinateMaps.

(** ** The grid of doubles the curve lives on

    At order [n + 1] every coordinate is an odd multiple of [2^-(n+2)]:
    [(2k+1) / 2^(n+2)] for some [0 <= k < 2^(n+1)]. *)

(** Equality of doubles, bit for bit. *)
Definition float_same (a b : float) : bool := PrimFloat.Leibniz.eqb a b.

(** The double [(2k+1) * 2^-(n+2)]. *)
Definition grid_double (n : nat) (k : Z) : float :=
  SF2Prim (S754_finite false (Z.to_pos (2 * k + 1)) (- Z.of_nat (n + 2))).

(** [k, k+1, ..., k+count-1] *)
Fixpoint indices_from (count : nat) (k : Z) : list Z :=
  match count with
  | O => []
  | S count' => k :: indices_from count' (k + 1)
  end.

Definition grid_indices (n : nat) : list Z := indices_from (2 ^ (n + 1)) 0.

(** [0 <= v && v <= 1] on doubles. *)
Definition in_unit_double (v : float) : bool :=
  PrimFloat.leb 0%float v && PrimFloat.leb v 1%float.

(** Every double of the grid of order [n + 1] lies in [0,1]. *)
Definition range_ok (n : nat) : bool :=
  forallb (fun k => in_unit_double (grid_double n k)) (grid_indices n).

(** The four coordinate maps of the loop send the grid of order [n + 1] into
    the grid of order [n + 2], without rounding. *)
Definition closure_ok (n : nat) : bool :=
  let half := 2 ^ (Z.of_nat n + 1) in
  forallb
    (fun k =>
       let v := grid_double n k in
       float_same (scale_coord lit_0 v) (grid_double (S n) k)
       && float_same (scale_coord lit_1 v) (grid_double (S n) (k + half))
       && float_same (scale_coord lit_0 (reflect_rotate_x v))
            (grid_double (S n) (half - k - 1))
       && float_same (scale_coord lit_1 (reflect_rotate_y v))
            (grid_double (S n) (2 * half - k - 1)))
    (grid_indices n).

Definition on_grid (n : nat) (v : float) : Prop :=
  exists k : Z, 0 <= k < 2 ^ (Z.of_nat n + 1) /\ v = grid_double n k.

Definition in_unit_square_double (p : space_vec2 float) : Prop :=
  in_unit_double (x p) = true /\ in_unit_double (y p) = true.

Definition point_on_grid (n : nat) (p : space_vec2 float) : Prop :=
  on_grid n (x p) /\ on_grid n (y p).

(** ** The curve on the integer grid

    The same recursion on pairs of grid indices: a point of the curve of order
    [n + 1] is [((2 kx + 1) / 2^(n+2), (2 ky + 1) / 2^(n+2))]. *)

(** What iteration [i] does to the indices of a point of order [n + 1]. *)
Definition index_quadrant (n i : nat) (k : Z * Z) : Z * Z :=
  let h := 2 ^ (Z.of_nat n + 1) in
  match i with
  | 0%nat => (h - snd k - 1, 2 * h - fst k - 1)
  | 1%nat => (fst k, snd k)
  | 2%nat => (fst k + h, snd k)
  | _ => (fst k + h, snd k + h)
  end.

Fixpoint index_curve (n : nat) : list (Z * Z) :=
  match n with
  | O => [(0, 1); (0, 0); (1, 0); (1, 1)]
  | S n' =>
      let lo := index_curve n' in
      map (index_quadrant n' 0) lo ++ map (index_quadrant n' 1) lo ++
      map (index_quadrant n' 2) lo ++ map (index_quadrant n' 3) lo
  end.

Definition grid_point_double (n : nat) (k : Z * Z) : space_vec2 float :=
  POINT_AT (grid_double n (fst k)) (grid_double n (snd k)).

(** [2^-m] as a rational. *)
Fixpoint half_pow (m : nat) : Q :=
  match m with
  | O => 1
  | S m' => half_pow m' * (1 # 2)
  end.

(** The rational [(2k+1) / 2^(n+2)]. *)
Definition grid_exact (n : nat) (k : Z) : Qc :=
  Q2Qc (inject_Z (2 * k + 1) * half_pow (n + 2)).

Definition grid_point_exact (n : nat) (k : Z * Z) : space_vec2 Qc :=
  POINT_AT (grid_exact n (fst k)) (grid_exact n (snd k)).

(** The odd number [2k+1] of a double [(2k+1) * 2^-(n+2)], read off its
    mantissa and exponent. *)
Definition odd_of (n : nat) (v : float) : int :=
  let (m, e) := PrimFloat.frshiftexp v in
  Uint63.lsr (PrimFloat.normfr_mantissa m)
    (Uint63.sub (Uint63.of_Z (53 - Z.of_nat (n + 2) + FloatOps.shift)) e).

Definition decode_ok (n : nat) : bool :=
  forallb (fun k => Uint63.eqb (odd_of n (grid_double n k))
                      (Uint63.of_Z (2 * k + 1)))
          (grid_indices n).

Definition index_in_range (n : nat) (k : Z * Z) : Prop :=
  0 <= fst k < 2 ^ (Z.of_nat n + 1) /\ 0 <= snd k < 2 ^ (Z.of_nat n + 1).

(** ** MAIN: the text writer *)

Section TextWriter.
Context {space_pos_t : Type}.

(** The characters [%.15lf] prints for one coordinate. *)
Variable printf_15lf : space_pos_t -> list byte.

(** [fprintf(fp, "(%.15lf,%.15lf)\n", (double) p.x, (double) p.y)] *)
Definition fprintf_point (p : space_vec2 space_pos_t) (fp : FILE) : FILE :=
  fp ++ ["("%byte] ++ printf_15lf (x p) ++ [","%byte] ++ printf_15lf (y p)
     ++ [")"%byte; x0a].

(** [write_hilbert_curve_txt(hc, len, fp)]; reading past the end of [hc] is
    undefined. *)
Definition write_hilbert_curve_txt (hc : list (space_vec2 space_pos_t))
    (len : Z) (fp : FILE) : outcome FILE :=
  for_range (Z.to_nat len) 0
    (fun i fp => p <- index hc i ;; Done (fprintf_point p fp)) fp.

End TextWriter.

(** ** MAIN: the driver *)


(** A [size_t] read as the [long long] that [%lli] expects. *)
Definition to_long_long (z : Z) : Z := (z + 2 ^ 63) mod 2 ^ 64 - 2 ^ 63.

Definition digit (d : Z) : byte :=
  match d with
  | 0 => "0" | 1 => "1" | 2 => "2" | 3 => "3" | 4 => "4"
  | 5 => "5" | 6 => "6" | 7 => "7" | 8 => "8" | _ => "9"
  end%byte.

(** The decimal digits of [v >= 0], most significant first; a [long long] has
    at most 19. *)
Fixpoint decimal (fuel : nat) (v : Z) : list byte :=
  match fuel with
  | O => []
  | S fuel' =>
      (if v / 10 =? 0 then [] else decimal fuel' (v / 10)) ++ [digit (v mod 10)]
  end.

(** What [%lli] prints. *)
Definition printf_lli (v : Z) : list byte :=
  let v := to_long_long v in
  if v <? 0 then "-"%byte :: decimal 19 (- v) else decimal 19 v.

(** What [%02lli] prints: at least two characters, padded with zeros on the
    left. *)
Definition printf_02lli (v : Z) : list byte :=
  let text := printf_lli v in
  repeat "0"%byte (2 - length text) ++ text.

(** [char file_name[] = "oxx_hilbert"]: eleven characters and the
    terminator. *)
Definition sizeof_file_name : nat := 12.

(** [sprintf(file_name, "o%02lli_hilbert", order)]: the text and its
    terminator are stored in [file_name]; storing past its end is undefined. *)
Definition sprintf_file_name (order : Z) : outcome (list byte) :=
  let text := (["o"] ++ printf_02lli order
               ++ ["_"; "h"; "i"; "l"; "b"; "e"; "r"; "t"])%byte in
  if (length text + 1 <=? sizeof_file_name)%nat
  then Done text
  else Undefined OutOfBounds.

(** The name [o<NN>_hilbert], [NN] being the two decimal digits of [order]. *)
Definition file_name_of (order : Z) : list byte :=
  (["o"; digit (order / 10); digit (order mod 10);
    "_"; "h"; "i"; "l"; "b"; "e"; "r"; "t"])%byte.






Section Main.
Context {space_pos_t : Type} {pos_ops : SpacePos space_pos_t}.

Local Abbreviation vec := (space_vec2 space_pos_t).

Variable junk : vec.
Variable bytes_of : vec -> list byte.




End Main.

Section MainEffects.
Context {space_pos_t : Type} {pos_ops : SpacePos space_pos_t}.
Variable bytes_of : space_vec2 space_pos_t -> list byte.


End MainEffects.

(** ** Quadrants on doubles *)

(** [0 < v && v < 1] on both coordinates. *)
Definition strictly_inside_double (p : space_vec2 float) : bool :=
  PrimFloat.ltb 0%float (x p) && PrimFloat.ltb (x p) 1%float
  && PrimFloat.ltb 0%float (y p) && PrimFloat.ltb (y p) 1%float.

(** The open quadrants of the open unit square, numbered as the loop visits
    them, by comparisons of doubles. *)
Definition in_quadrant_double (i : nat) (p : space_vec2 float) : bool :=
  strictly_inside_double p
  && match i with
     | 0%nat => PrimFloat.ltb (x p) 0.5%float && PrimFloat.ltb 0.5%float (y p)
     | 1%nat => PrimFloat.ltb (x p) 0.5%float && PrimFloat.ltb (y p) 0.5%float
     | 2%nat => PrimFloat.ltb 0.5%float (x p) && PrimFloat.ltb (y p) 0.5%float
     | _ => PrimFloat.ltb 0.5%float (x p) && PrimFloat.ltb 0.5%float (y p)
     end.

(** On the grid of order [n + 1], every double lies strictly between 0 and 1,
    the doubles below 0.5 are those of the indices below [2^n], and the others
    are above 0.5. *)
Definition half_ok (n : nat) : bool :=
  forallb (fun k =>
             let v := grid_double n k in
             PrimFloat.ltb 0%float v && PrimFloat.ltb v 1%float
             && (if k <? 2 ^ Z.of_nat n
                 then PrimFloat.ltb v 0.5%float
                 else PrimFloat.ltb 0.5%float v))
          (grid_indices n).

(** ** Round trips on the grid of doubles *)

(** On the grid of order [n + 1], reflecting a coordinate about 0.5 twice
    gives it back, and so does moving it by -0.5 and back twice, which is
    what [space_rotate_c] followed by [space_rotate_cc] about the centre does
    to an x coordinate. *)
Definition round_trip_ok (n : nat) : bool :=
  forallb
    (fun k =>
       let v := grid_double n k in
       float_same (SPACE_REFLECT_POINT (SPACE_REFLECT_POINT v lit_05) lit_05) v
       && float_same
            (pos_add (pos_sub (pos_add (pos_sub v lit_05) lit_05) lit_05)
                     lit_05) v)
    (grid_indices n).

(** ** The rational value of a double *)

(** [2^e] for an integer [e], as a rational. *)
Definition Qpow2 (e : Z) : Q := Qpower 2 e.

Definition sign_of (s : bool) : Q := if s then (-1)%Q else 1%Q.

(** The value of a zero or of a finite number; infinities and NaN have
    none. *)
Definition SFvalue (f : spec_float) : option Q :=
  match f with
  | S754_zero _ => Some 0%Q
  | S754_finite s m e => Some (sign_of s * (inject_Z (Zpos m) * Qpow2 e))%Q
  | _ => None
  end.

Definition double_value (v : float) : option Q := SFvalue (Prim2SF v).

(** The relative error of one rounding: [2^-52]. *)
Definition rounding_unit : Q := 1 # 4503599627370496.

(** A rounded result: zero, or a finite number whose mantissa, aligned to the
    exponent [f], is [m1]. *)
Definition represents (s : bool) (m1 f : Z) (r : spec_float) : Prop :=
  (m1 = 0 /\ r = S754_zero s)
  \/ (exists (m' : positive) (e' : Z),
        r = S754_finite s m' e' /\ f <= e' /\ Zpos m' * 2 ^ (e' - f) = m1).

(** ** Closeness of doubles *)

(** A double that has a value of magnitude at most [B]. *)
Definition bounded_by (B : Q) (v : float) : bool :=
  match double_value v with
  | Some q => Qle_bool (- B) q && Qle_bool q B
  | None => false
  end.

(** Two doubles that have values at most [tol] apart. *)
Definition close_to (tol : Q) (a b : float) : bool :=
  match double_value a, double_value b with
  | Some qa, Some qb => Qle_bool (- tol) (qb - qa) && Qle_bool (qb - qa) tol
  | _, _ => false
  end.

(** The tolerance of a round trip on coordinates of magnitude at most [B]:
    [B * 2^-48]. *)
Definition tolerance (B : Q) : Q := B * (1 # 281474976710656).

(** The largest bound the round trips are proved for: [2^1020]. *)
Definition largest_bound : Q := Qpow2 1020.

(** What [space_rotate_c] followed by [space_rotate_cc] about [origin] makes
    of the x coordinate [a] and of the y coordinate [b] of a point. *)
Definition rotate_c_cc_x (ox oy a : float) : float :=
  ((((a - ox) + oy) - oy) + ox)%float.

Definition rotate_c_cc_y (ox oy b : float) : float :=
  (((((b - oy) * (-1)) + ox) - ox) * (-1) + oy)%float.

(** * Properties *)

(** ** In-place loops over a buffer *)

Section GeometryFacts.
Context {space_pos_t : Type} {pos_ops : SpacePos space_pos_t}.

Local Abbreviation vec := (space_vec2 space_pos_t).

(** A loop over the first [len] elements rewrites exactly those. *)
Lemma for_each_prefix (body : vec -> vec) (len : nat) :
  forall arr, (len <= length arr)%nat ->
    for_each body arr len = Done (map body (firstn len arr) ++ skipn len arr).
Proof.
  induction len as [| len IH]; intros arr Hlen; simpl.
  - reflexivity.
  - destruct arr as [| p rest]; simpl in *; [lia |].
    rewrite IH by lia. reflexivity.
Qed.

Lemma for_each_whole (body : vec -> vec) (arr : list vec) :
  for_each body arr (length arr) = Done (map body arr).
Proof.
  rewrite for_each_prefix by lia.
  now rewrite firstn_all, skipn_all, app_nil_r.
Qed.

(** A loop that runs past the end of the buffer is undefined. *)
Lemma for_each_overrun (body : vec -> vec) (len : nat) :
  forall arr, (length arr < len)%nat ->
    for_each body arr len = Undefined OutOfBounds.
Proof.
  induction len as [| len IH]; intros arr Hlen; simpl; [lia |].
  destruct arr as [| p rest]; simpl in *; [reflexivity |].
  rewrite IH by lia. reflexivity.
Qed.

(** No loop changes the length of its buffer. *)
Lemma for_each_length (body : vec -> vec) (len : nat) (arr arr' : list vec) :
  for_each body arr len = Done arr' -> length arr' = length arr.
Proof.
  destruct (Nat.le_gt_cases len (length arr)) as [Hle | Hgt].
  - rewrite for_each_prefix by exact Hle. intros [= <-].
    rewrite length_app, length_map, <- length_app, firstn_skipn. reflexivity.
  - rewrite for_each_overrun by exact Hgt. discriminate.
Qed.

Lemma space_reflect_y_whole (arr : list vec) (len : Z) (origin : space_pos_t) :
  len = Z.of_nat (length arr) ->
  space_reflect_y arr len origin = Done (map (reflect_y_point origin) arr).
Proof.
  intros ->. unfold space_reflect_y. rewrite Nat2Z.id. apply for_each_whole.
Qed.

Lemma space_rotate_c_whole (arr : list vec) (len : Z) (origin : vec) :
  len = Z.of_nat (length arr) ->
  space_rotate_c arr len origin
  = Done (map (fun p => SPACE_ROTATE_POINT_ABOUT_ORIGIN p member_x origin) arr).
Proof.
  intros ->. unfold space_rotate_c. rewrite Nat2Z.id. apply for_each_whole.
Qed.

Lemma space_rotate_cc_whole (arr : list vec) (len : Z) (origin : vec) :
  len = Z.of_nat (length arr) ->
  space_rotate_cc arr len origin
  = Done (map (fun p => SPACE_ROTATE_POINT_ABOUT_ORIGIN p member_y origin) arr).
Proof.
  intros ->. unfold space_rotate_cc. rewrite Nat2Z.id. apply for_each_whole.
Qed.

Lemma space_scale_whole (arr : list vec) (len : Z) (scale : space_pos_t)
    (origin : vec) :
  len = Z.of_nat (length arr) ->
  space_scale arr len scale origin
  = Done (map (scale_point (POINT_AT scale scale) origin) arr).
Proof.
  intros ->. unfold space_scale. rewrite Nat2Z.id. apply for_each_whole.
Qed.

End GeometryFacts.

(** ** Machine integers *)

Lemma to_size_t_small (z : Z) : 0 <= z < 2 ^ 64 -> to_size_t z = z.
Proof. intros Hz. unfold to_size_t. now apply Z.mod_small. Qed.

Lemma pow4_pos (n : Z) : 0 <= n -> 0 < 4 ^ n.
Proof. intros Hn. apply Z.pow_pos_nonneg; lia. Qed.

Lemma pow4_le (n m : Z) : 0 <= n <= m -> 4 ^ n <= 4 ^ m.
Proof. intros Hn. apply Z.pow_le_mono_r; lia. Qed.

Lemma pow4_succ (n : Z) : 0 <= n -> 4 ^ (n + 1) = 4 * 4 ^ n.
Proof. intros Hn. rewrite Z.pow_add_r by lia. lia. Qed.

(** The macro yields [4^order] exactly for the orders 0 to 15. *)
Lemma HILBERT_NUM_POINTS_defined (order : Z) :
  0 <= order <= 15 -> HILBERT_NUM_POINTS order = Done (4 ^ order).
Proof.
  intros Ho. unfold HILBERT_NUM_POINTS, int_shl_1.
  rewrite (to_size_t_small order) by lia.
  rewrite (to_size_t_small (order * 2)) by lia.
  replace ((0 <=? order * 2) && (order * 2 <? 31)) with true
    by (symmetry; apply andb_true_iff; split; [apply Z.leb_le | apply Z.ltb_lt]; lia).
  cbn [bind]. rewrite Z.shiftl_1_l.
  replace (2 ^ (order * 2)) with (4 ^ order)
    by (rewrite Z.mul_comm, Z.pow_mul_r by lia; reflexivity).
  rewrite to_size_t_small; [reflexivity |].
  pose proof (pow4_pos order) as Hp. pose proof (pow4_le order 15) as Hl.
  change (4 ^ 15) with 1073741824 in Hl. lia.
Qed.

(** For every other [int] the shift in the macro is undefined. *)
Lemma HILBERT_NUM_POINTS_undefined (order : Z) :
  - 2 ^ 31 <= order < 2 ^ 31 -> order < 0 \/ 15 < order ->
  HILBERT_NUM_POINTS order = Undefined InvalidShift.
Proof.
  intros Hint Ho. unfold HILBERT_NUM_POINTS, int_shl_1.
  assert (Hc : 31 <= to_size_t (to_size_t order * 2)).
  { destruct Ho as [Hneg | Hbig].
    - assert (E : to_size_t order = order + 2 ^ 64).
      { unfold to_size_t. symmetry. apply (Z.mod_unique_pos _ _ (-1)); lia. }
      rewrite E. unfold to_size_t.
      rewrite <- (Z.mod_unique_pos ((order + 2 ^ 64) * 2) (2 ^ 64) 1
                 (2 * order + 2 ^ 64)) by lia. lia.
    - rewrite (to_size_t_small order) by lia.
      rewrite to_size_t_small by lia. lia. }
  replace (to_size_t (to_size_t order * 2) <? 31) with false
    by (symmetry; apply Z.ltb_ge; exact Hc).
  rewrite andb_false_r. reflexivity.
Qed.

(** ** Buffers *)

Section BufferFacts.
Context {A : Type}.

Lemma malloc_length (junk : A) (n : nat) :
  malloc junk (Z.of_nat n * sizeof_space_vec2) = repeat junk n.
Proof.
  unfold malloc, sizeof_space_vec2.
  rewrite Z.div_mul by lia. now rewrite Nat2Z.id.
Qed.

(** Copying a whole buffer into a fresh allocation of its size. *)
Lemma memcpy_fresh (junk : A) (src : list A) :
  memcpy (repeat junk (length src)) 0 src
         (Z.of_nat (length src) * sizeof_space_vec2) = Done src.
Proof.
  unfold memcpy, sizeof_space_vec2.
  rewrite Z.div_mul by lia. rewrite Nat2Z.id. cbn [Z.to_nat Nat.add firstn app].
  rewrite repeat_length, Nat.leb_refl. cbn [andb].
  rewrite firstn_all, skipn_all2 by (rewrite repeat_length; lia).
  now rewrite app_nil_r.
Qed.

(** Copying a block right behind what has been filled so far. *)
Lemma memcpy_next (junk : A) (pre src : list A) (n r : nat) (off : Z) :
  length src = n -> off = Z.of_nat (length pre) ->
  memcpy (pre ++ repeat junk (n + r)) off src (Z.of_nat n * sizeof_space_vec2)
  = Done (pre ++ src ++ repeat junk r).
Proof.
  intros <- ->. unfold memcpy, sizeof_space_vec2.
  rewrite Z.div_mul by lia. rewrite !Nat2Z.id.
  rewrite Nat.leb_refl. cbn [andb].
  replace (length pre + length src <=? length (pre ++ repeat junk (length src + r)))%nat
    with true
    by (symmetry; apply Nat.leb_le; rewrite length_app, repeat_length; lia).
  rewrite firstn_app, Nat.sub_diag, firstn_all. cbn [firstn]. rewrite app_nil_r.
  rewrite firstn_all.
  rewrite skipn_app, skipn_all2 by lia.
  replace (length pre + length src - length pre)%nat with (length src) by lia.
  rewrite repeat_app, skipn_app, repeat_length, Nat.sub_diag.
  rewrite skipn_all2 by (rewrite repeat_length; lia).
  reflexivity.
Qed.

End BufferFacts.

(** ** The curve builder *)

Section HilbertFacts.
Context {space_pos_t : Type} {pos_ops : SpacePos space_pos_t}.

Local Abbreviation vec := (space_vec2 space_pos_t).

Variable junk : vec.

Lemma order_curve_length (n : nat) :
  Z.of_nat (length (order_curve n)) = 4 ^ (Z.of_nat n + 1).
Proof.
  induction n as [| n IH].
  - reflexivity.
  - cbn [order_curve]. rewrite !length_app, !length_map.
    replace (Z.of_nat (S n) + 1) with ((Z.of_nat n + 1) + 1) by lia.
    rewrite pow4_succ by lia. lia.
Qed.

(** One iteration of the loop fills the next quarter of [arr]. *)
Lemma quadrant_step_next (lo pre : list vec) (i r : nat) :
  (i < 4)%nat -> length pre = (i * length lo)%nat ->
  Z.of_nat (length lo) * sizeof_space_vec2 < 2 ^ 64 ->
  quadrant_step junk lo (Z.of_nat (length lo))
    (to_size_t (Z.of_nat (length lo) * sizeof_space_vec2)) center_point
    (Z.of_nat i) (pre ++ repeat junk (length lo + r))
  = Done (pre ++ map (quadrant_point i) lo ++ repeat junk r).
Proof.
  intros Hi Hpre Hsize. unfold quadrant_step.
  rewrite to_size_t_small by (unfold sizeof_space_vec2 in *; lia).
  rewrite (malloc_length junk (length lo)), memcpy_fresh. cbn [bind].
  rewrite (to_size_t_small (Z.of_nat (length lo) * Z.of_nat i))
    by (unfold sizeof_space_vec2 in *; nia).
  destruct i as [| [| [| [| i]]]]; try lia; cbn [Z.of_nat Pos.of_succ_nat Pos.succ Z.eqb Pos.eqb].
  - rewrite space_reflect_y_whole by reflexivity. cbn [bind].
    rewrite space_rotate_c_whole by (now rewrite length_map).
    cbn [bind index scale_origins nth_error Z.to_nat].
    rewrite space_scale_whole by (now rewrite !length_map). cbn [bind].
    rewrite !map_map.
    apply memcpy_next; [now rewrite length_map | lia].
  - cbv [index scale_origins nth_error Z.to_nat Pos.to_nat Pos.iter_op Nat.add].
    cbn [bind].
    rewrite space_scale_whole by reflexivity. cbn [bind].
    apply memcpy_next; [now rewrite length_map | lia].
  - cbv [index scale_origins nth_error Z.to_nat Pos.to_nat Pos.iter_op Nat.add].
    cbn [bind].
    rewrite space_scale_whole by reflexivity. cbn [bind].
    apply memcpy_next; [now rewrite length_map | lia].
  - cbv [index scale_origins nth_error Z.to_nat Pos.to_nat Pos.iter_op Nat.add].
    cbn [bind].
    rewrite space_scale_whole by reflexivity. cbn [bind].
    apply memcpy_next; [now rewrite length_map | lia].
Qed.

(** The four iterations fill [arr] with the four transformed copies. *)
Lemma quadrant_loop_fills (lo : list vec) :
  Z.of_nat (length lo) * sizeof_space_vec2 < 2 ^ 64 ->
  for_range 4 0
    (quadrant_step junk lo (Z.of_nat (length lo))
       (to_size_t (Z.of_nat (length lo) * sizeof_space_vec2)) center_point)
    (repeat junk (4 * length lo))
  = Done (map (quadrant_point 0) lo ++ map (quadrant_point 1) lo ++
          map (quadrant_point 2) lo ++ map (quadrant_point 3) lo).
Proof.
  intros Hsize. set (n := length lo).
  replace (repeat junk (4 * n))
    with ([] ++ repeat junk (n + (n + (n + (n + 0))))) by (cbn [app]; f_equal; lia).
  subst n. cbn [for_range].
  rewrite (quadrant_step_next lo [] 0) by (cbn [length]; lia || assumption).
  cbn [bind app].
  rewrite (quadrant_step_next lo _ 1) by (rewrite ?length_map; lia || assumption).
  cbn [bind]. rewrite app_assoc.
  rewrite (quadrant_step_next lo _ 2)
    by (rewrite ?length_app, ?length_map; lia || assumption).
  cbn [bind]. rewrite app_assoc.
  rewrite (quadrant_step_next lo _ 3)
    by (rewrite ?length_app, ?length_map; lia || assumption).
  cbn [bind repeat]. rewrite app_nil_r, <- !app_assoc. reflexivity.
Qed.

(** With enough fuel the code builds [order_curve] at every order from 1 to
    15, and returns its length [4^order]. *)
Lemma hilbert_create_rec_curve (n : nat) :
  forall fuel : nat, (n < fuel)%nat -> (n <= 14)%nat ->
    hilbert_create_rec junk fuel (Z.of_nat n + 1) false
    = Done (4 ^ (Z.of_nat n + 1), Some (order_curve n)).
Proof.
  induction n as [| n IH]; intros fuel Hfuel Hn.
  - destruct fuel as [| fuel]; [lia |]. reflexivity.
  - destruct fuel as [| fuel]; [lia |].
    cbn [hilbert_create_rec andb].
    rewrite HILBERT_NUM_POINTS_defined by lia. cbn [bind].
    replace (Z.of_nat (S n) + 1 =? 1) with false by (symmetry; apply Z.eqb_neq; lia).
    replace (Z.of_nat (S n) + 1 - 1) with (Z.of_nat n + 1) by lia.
    rewrite IH by lia. cbn [bind fst snd].
    pose proof (order_curve_length n) as Hlen.
    assert (Hb : 4 ^ (Z.of_nat n + 1) <= 4 ^ 15) by (apply pow4_le; lia).
    change (4 ^ 15) with 1073741824 in Hb.
    replace (Z.of_nat (S n) + 1) with ((Z.of_nat n + 1) + 1) by lia.
    rewrite (pow4_succ (Z.of_nat n + 1)) by lia.
    rewrite <- Hlen in *.
    rewrite (to_size_t_small (4 * Z.of_nat (length (order_curve n)) * sizeof_space_vec2))
      by (unfold sizeof_space_vec2; lia).
    replace (4 * Z.of_nat (length (order_curve n)))
      with (Z.of_nat (4 * length (order_curve n))) by lia.
    rewrite malloc_length.
    rewrite quadrant_loop_fills by (unfold sizeof_space_vec2; lia).
    reflexivity.
Qed.

(** [hilbert_create] at the orders 1 to 15. *)
Lemma hilbert_create_curve (order : Z) :
  1 <= order <= 15 ->
  hilbert_create junk order false
  = Done (4 ^ order, Some (order_curve (Z.to_nat (order - 1)))).
Proof.
  intros Ho. unfold hilbert_create.
  replace order with (Z.of_nat (Z.to_nat (order - 1)) + 1) at 2 3 by lia.
  apply hilbert_create_rec_curve; lia.
Qed.

(** A null [out] with a valid order reaches [fail:], which stores through
    [out]. *)
Lemma hilbert_create_null_out (order : Z) :
  1 <= order -> hilbert_create junk order true = Undefined NullPointer.
Proof.
  intros Ho. unfold hilbert_create. cbn [hilbert_create_rec andb].
  replace (order >=? 1) with true by (symmetry; apply Z.geb_le; lia).
  reflexivity.
Qed.

(** Above order 15 the shift in [HILBERT_NUM_POINTS] is undefined. *)
Lemma hilbert_create_above_15 (order : Z) :
  15 < order < 2 ^ 31 ->
  hilbert_create junk order false = Undefined InvalidShift.
Proof.
  intros Ho. unfold hilbert_create. cbn [hilbert_create_rec andb].
  rewrite HILBERT_NUM_POINTS_undefined by lia. reflexivity.
Qed.

(** Below order 1 the guard lets the call through, whatever [out] is, and the
    shift is undefined: at once for a negative order, in the recursive call
    for order 0. *)
Lemma hilbert_create_below_1 (order : Z) (out_is_null : bool) :
  - 2 ^ 31 <= order < 1 ->
  hilbert_create junk order out_is_null = Undefined InvalidShift.
Proof.
  intros Ho. unfold hilbert_create. cbn [hilbert_create_rec].
  replace (order >=? 1) with false
    by (symmetry; rewrite Z.geb_leb; apply Z.leb_gt; lia).
  rewrite andb_false_r.
  destruct (Z.eq_dec order 0) as [-> | Hneg].
  - reflexivity.
  - rewrite HILBERT_NUM_POINTS_undefined by lia. reflexivity.
Qed.

(** Every call with an [int] order ends in one of the three ways above or
    returns the curve; it never runs out of fuel, and it never returns the
    value -1 that [fail:] is written to return. *)
Lemma hilbert_create_total (order : Z) (out_is_null : bool) :
  - 2 ^ 31 <= order < 2 ^ 31 ->
  hilbert_create junk order out_is_null
  = if (1 <=? order) && (order <=? 15) then
      if out_is_null then Undefined NullPointer
      else Done (4 ^ order, Some (order_curve (Z.to_nat (order - 1))))
    else if out_is_null && (1 <=? order) then Undefined NullPointer
    else Undefined InvalidShift.
Proof.
  intros Hint.
  destruct (1 <=? order) eqn:H1; [apply Z.leb_le in H1 | apply Z.leb_gt in H1];
    cbn [andb].
  - destruct (order <=? 15) eqn:H15;
      [apply Z.leb_le in H15 | apply Z.leb_gt in H15].
    + destruct out_is_null.
      * now apply hilbert_create_null_out.
      * apply hilbert_create_curve; lia.
    + destruct out_is_null; cbn [andb].
      * now apply hilbert_create_null_out.
      * apply hilbert_create_above_15; lia.
  - rewrite andb_false_r. apply hilbert_create_below_1; lia.
Qed.

Lemma hilbert_create_Done (order ret : Z) (out_is_null : bool)
    (pts : option (list vec)) :
  - 2 ^ 31 <= order < 2 ^ 31 ->
  hilbert_create junk order out_is_null = Done (ret, pts) ->
  1 <= order <= 15 /\ out_is_null = false /\ ret = 4 ^ order /\
  pts = Some (order_curve (Z.to_nat (order - 1))).
Proof.
  intros Hint E. rewrite hilbert_create_total in E by exact Hint.
  destruct (1 <=? order) eqn:H1; [apply Z.leb_le in H1 | apply Z.leb_gt in H1];
    cbn [andb] in E.
  - destruct (order <=? 15) eqn:H15;
      [apply Z.leb_le in H15 | apply Z.leb_gt in H15].
    + destruct out_is_null; [discriminate |].
      injection E as <- <-. repeat split; lia.
    + destruct out_is_null; discriminate.
  - rewrite andb_false_r in E. discriminate.
Qed.

(** The code's own decomposition: the lower-order curve, transformed four
    times with the array operations, the last copy being scaled only. *)
Lemma order_curve_blocks (n : nat) :
  block_reflected_rotated true (POINT_AT lit_0 lit_1) (order_curve n)
    = Done (map (quadrant_point 0) (order_curve n))
  /\ block_scaled (POINT_AT lit_0 lit_0) (order_curve n)
    = Done (map (quadrant_point 1) (order_curve n))
  /\ block_scaled (POINT_AT lit_1 lit_0) (order_curve n)
    = Done (map (quadrant_point 2) (order_curve n))
  /\ block_scaled (POINT_AT lit_1 lit_1) (order_curve n)
    = Done (map (quadrant_point 3) (order_curve n)).
Proof.
  unfold block_reflected_rotated, block_scaled. repeat split.
  - rewrite space_reflect_y_whole by reflexivity. cbn [bind].
    rewrite space_rotate_c_whole by (now rewrite length_map). cbn [bind].
    rewrite space_scale_whole by (now rewrite !length_map).
    now rewrite !map_map.
  - now rewrite space_scale_whole.
  - now rewrite space_scale_whole.
  - now rewrite space_scale_whole.
Qed.

End HilbertFacts.

(** ** Lists without repetition *)

Lemma NoDup_map_injective {A B : Type} (f : A -> B) (l : list A) :
  (forall a b : A, In a l -> In b l -> f a = f b -> a = b) ->
  NoDup l -> NoDup (map f l).
Proof.
  intros Hinj Hl. induction Hl as [| a l Hnotin Hl IH]; cbn [map].
  - constructor.
  - constructor.
    + intros Hin. apply in_map_iff in Hin. destruct Hin as (b & Hfb & Hb).
      apply Hinj in Hfb; [| now right | now left]. subst b. contradiction.
    + apply IH. intros b c Hb Hc. apply Hinj; now right.
Qed.

(** ** Points *)

Lemma POINT_AT_inj {T : Type} (a b c d : T) :
  POINT_AT a b = POINT_AT c d -> a = c /\ b = d.
Proof. intros [= -> ->]. split; reflexivity. Qed.

(** ** Exact arithmetic *)

Lemma Qc_eq_this (a b : Qc) : a = b -> (a == b)%Q.
Proof. intros ->. reflexivity. Qed.

(** The value of a canonical rational built by each operation. *)
Lemma this_Q2Qc (q : Q) : (this (Q2Qc q) == q)%Q.
Proof. apply Qred_correct. Qed.

Lemma this_Qcplus (a b : Qc) : (this (a + b)%Qc == this a + this b)%Q.
Proof. apply Qred_correct. Qed.

Lemma this_Qcmult (a b : Qc) : (this (a * b)%Qc == this a * this b)%Q.
Proof. apply Qred_correct. Qed.

Lemma this_Qcopp (a : Qc) : (this (- a)%Qc == - this a)%Q.
Proof. apply Qred_correct. Qed.

Lemma this_Qcminus (a b : Qc) : (this (a - b)%Qc == this a - this b)%Q.
Proof. unfold Qcminus. rewrite this_Qcplus, this_Qcopp. reflexivity. Qed.

(** Goals over the exact coordinates become goals over [Q], where [lra]
    decides them. *)
Ltac qc_to_q :=
  cbn [pos_sub pos_mul pos_add lit_m1 lit_0 lit_025 lit_05 lit_075 lit_1
       exact_pos] in *;
  repeat match goal with
         | H : @eq Qc _ _ |- _ => apply Qc_eq_this in H
         | |- @eq Qc _ _ => apply Qc_is_canon
         end;
  unfold Qcle, Qclt in *;
  repeat progress
    (rewrite ?this_Qcplus, ?this_Qcmult, ?this_Qcminus, ?this_Qcopp,
       ?this_Q2Qc in *).

Ltac qc_lra := qc_to_q; lra.

Ltac unfold_point_ops :=
  cbv [SPACE_ROTATE_POINT_ABOUT_ORIGIN reflect_y_point reflect_x_point
       scale_point rotated negate_member SPACE_SWAP_POINT SPACE_OP_POINTS
       SPACE_REFLECT_POINT x y] in *.

Section ExactGeometry.

Local Abbreviation vec := (space_vec2 Qc).

Lemma reflect_y_point_involutive (origin : Qc) (p : vec) :
  reflect_y_point origin (reflect_y_point origin p) = p.
Proof. destruct p as [a b]. unfold_point_ops. f_equal. qc_lra. Qed.

Lemma rotate_c_then_cc (origin p : vec) :
  SPACE_ROTATE_POINT_ABOUT_ORIGIN
    (SPACE_ROTATE_POINT_ABOUT_ORIGIN p member_x origin) member_y origin = p.
Proof.
  destruct p as [a b], origin as [c d]. unfold_point_ops. f_equal; qc_lra.
Qed.

End ExactGeometry.

(** ** Binary64 arithmetic *)

(** Two concrete doubles are told apart by comparing them. *)
Ltac float_neq :=
  let E := fresh "E" in
  intro E;
  match type of E with
  | ?a = ?b => apply (f_equal (fun v => PrimFloat.eqb v b)) in E
  end;
  vm_compute in E; discriminate E.

(** ** The array operations *)

Section ArrayOperations.
Context {space_pos_t : Type} {pos_ops : SpacePos space_pos_t}.

Local Abbreviation vec := (space_vec2 space_pos_t).

Lemma rotate_point_rotated (negated : member) (origin p : vec) :
  SPACE_ROTATE_POINT_ABOUT_ORIGIN p negated origin = rotated negated origin p.
Proof. destruct negated; reflexivity. Qed.

(** C3 (amended): for every point sequence and origin, [space_rotate_c] maps
    each point [p] to [origin] plus [p - origin] swapped with the x coordinate
    negated after the swap, [space_rotate_cc] maps it to [origin] plus
    [p - origin] swapped with the y coordinate negated after the swap, and
    neither changes the length of the sequence, whatever [len] they run to. *)
Theorem space_rotate_negates (arr : list vec) (origin : vec) :
  space_rotate_c arr (Z.of_nat (length arr)) origin
    = Done (map (rotated member_x origin) arr)
  /\ space_rotate_cc arr (Z.of_nat (length arr)) origin
    = Done (map (rotated member_y origin) arr)
  /\ (forall len arr',
        space_rotate_c arr len origin = Done arr'
        \/ space_rotate_cc arr len origin = Done arr' ->
        length arr' = length arr).
Proof.
  split; [| split].
  - rewrite space_rotate_c_whole by reflexivity.
    apply f_equal, map_ext. intros p. apply rotate_point_rotated.
  - rewrite space_rotate_cc_whole by reflexivity.
    apply f_equal, map_ext. intros p. apply rotate_point_rotated.
  - intros len arr' [E | E]; exact (for_each_length _ _ _ _ E).
Qed.

End ArrayOperations.

(** C3, as stated, fails: on doubles, [space_rotate_c] sends the point (1,2)
    about the origin (0,0) to (-2,1), not to (2,-1), which is the swap with
    the y coordinate negated; [space_rotate_cc] sends it to (2,-1), not to
    (-2,1), which is the swap with the x coordinate negated. *)
Lemma space_rotate_c_negates_x_not_y :
  space_rotate_c [POINT_AT 1%float 2%float] 1 (POINT_AT 0%float 0%float)
    <> Done (map (rotated member_y (POINT_AT 0%float 0%float))
                 [POINT_AT 1%float 2%float])
  /\ space_rotate_cc [POINT_AT 1%float 2%float] 1 (POINT_AT 0%float 0%float)
    <> Done (map (rotated member_x (POINT_AT 0%float 0%float))
                 [POINT_AT 1%float 2%float]).
Proof.
  split; intros E;
    apply (f_equal (fun o => match o with
                             | Done (p :: _) => PrimFloat.ltb (x p) 0%float
                             | _ => false
                             end)) in E;
    vm_compute in E; discriminate E.
Qed.

Example space_rotate_c_1_2 :
  space_rotate_c [POINT_AT 1%float 2%float] 1 (POINT_AT 0%float 0%float)
    = Done [POINT_AT (-2)%float 1%float]
  /\ space_rotate_cc [POINT_AT 1%float 2%float] 1 (POINT_AT 0%float 0%float)
    = Done [POINT_AT 2%float (-1)%float].
Proof. split; vm_compute; reflexivity. Qed.

(** In exact arithmetic, for every finite point sequence and every axis
    value, applying [space_reflect_y] twice with the same axis returns every
    point to its original coordinates, and the y coordinates are the original
    ones after each application. *)
Lemma space_reflect_y_twice_exact (arr : list (space_vec2 Qc)) (axis : Qc) :
  exists once : list (space_vec2 Qc),
    space_reflect_y arr (Z.of_nat (length arr)) axis = Done once
    /\ map y once = map y arr
    /\ space_reflect_y once (Z.of_nat (length arr)) axis = Done arr.
Proof.
  exists (map (reflect_y_point axis) arr). split; [| split].
  - now apply space_reflect_y_whole.
  - rewrite map_map. apply map_ext. intros [a b]. reflexivity.
  - rewrite space_reflect_y_whole by (now rewrite length_map).
    rewrite map_map. f_equal. rewrite <- (map_id arr) at 2.
    apply map_ext. intros p. apply reflect_y_point_involutive.
Qed.

(** On doubles the round trip is not exact to the bit: reflecting the point
    (0.1, 0) twice about the axis 0.5 yields the x coordinate
    0.09999999999999998 (the double below 0.1 by two units in the last place),
    because the two subtractions round. *)
Lemma space_reflect_y_twice_rounds :
  (once <- space_reflect_y [POINT_AT 0x1.999999999999ap-4%float 0%float] 1
             0.5%float ;;
   space_reflect_y once 1 0.5%float)
    = Done [POINT_AT 0x1.9999999999998p-4%float 0%float]
  /\ 0x1.9999999999998p-4%float <> 0x1.999999999999ap-4%float.
Proof.
  split; [vm_compute; reflexivity | float_neq].
Qed.

(** In exact arithmetic, for every finite point sequence and every origin,
    [space_rotate_c] followed by [space_rotate_cc] about the same origin
    returns every point to its original coordinates. *)
Lemma space_rotate_c_cc_exact (arr : list (space_vec2 Qc))
    (origin : space_vec2 Qc) :
  exists turned : list (space_vec2 Qc),
    space_rotate_c arr (Z.of_nat (length arr)) origin = Done turned
    /\ space_rotate_cc turned (Z.of_nat (length arr)) origin = Done arr.
Proof.
  exists (map (fun p => SPACE_ROTATE_POINT_ABOUT_ORIGIN p member_x origin) arr).
  split.
  - now apply space_rotate_c_whole.
  - rewrite space_rotate_cc_whole by (now rewrite length_map).
    rewrite map_map. f_equal. rewrite <- (map_id arr) at 2.
    apply map_ext. intros p. apply rotate_c_then_cc.
Qed.

(** On doubles the round trip is not exact to the bit: rotating the point
    (0.1, 0.2) clockwise and then counter-clockwise about (0.5, 0.5) yields
    (0.09999999999999998, 0.19999999999999996), because the subtractions
    round. *)
Lemma space_rotate_c_cc_rounds :
  (turned <- space_rotate_c
               [POINT_AT 0x1.999999999999ap-4%float 0x1.999999999999ap-3%float]
               1 (POINT_AT 0.5%float 0.5%float) ;;
   space_rotate_cc turned 1 (POINT_AT 0.5%float 0.5%float))
    = Done [POINT_AT 0x1.9999999999998p-4%float 0x1.9999999999998p-3%float]
  /\ 0x1.9999999999998p-4%float <> 0x1.999999999999ap-4%float.
Proof.
  split; [vm_compute; reflexivity | float_neq].
Qed.

(** ** The curve in exact arithmetic *)

Section ExactCurve.

Local Abbreviation vec := (space_vec2 Qc).

Lemma strictly_inside_in_unit_square (p : vec) :
  strictly_inside p -> in_unit_square p.
Proof.
  unfold strictly_inside, in_unit_square.
  intros (H1 & H2 & H3 & H4). repeat split; now apply Qclt_le_weak.
Qed.

Lemma o1_hilbert_inside : Forall strictly_inside (@o1_hilbert Qc _).
Proof.
  unfold o1_hilbert, strictly_inside.
  repeat constructor; cbn [x y]; qc_lra.
Qed.

(** Iteration [i] puts a point of the open unit square into the open quadrant
    number [i]. *)
Lemma quadrant_point_in_quadrant (i : nat) (p : vec) :
  (i < 4)%nat -> strictly_inside p -> in_quadrant i (quadrant_point i p).
Proof.
  intros Hi. destruct p as [a b].
  unfold in_quadrant, strictly_inside, quadrant_point, center_point.
  destruct i as [| [| [| [| i]]]]; try lia;
    cbn [nth scale_origins]; unfold_point_ops;
    intros (H1 & H2 & H3 & H4); repeat split; qc_lra.
Qed.

Lemma quadrant_point_injective (i : nat) (p q : vec) :
  (i < 4)%nat -> quadrant_point i p = quadrant_point i q -> p = q.
Proof.
  intros Hi. destruct p as [a b], q as [c d].
  unfold quadrant_point, center_point.
  destruct i as [| [| [| [| i]]]]; try lia;
    cbn [nth scale_origins]; unfold_point_ops;
    intros E; apply POINT_AT_inj in E; destruct E as [Hx Hy]; f_equal; qc_lra.
Qed.

Lemma in_quadrant_unique (i j : nat) (p : vec) :
  (i < 4)%nat -> (j < 4)%nat ->
  in_quadrant i p -> in_quadrant j p -> i = j.
Proof.
  intros Hi Hj. destruct p as [a b]. unfold in_quadrant. cbn [x y].
  destruct i as [| [| [| [| i]]]]; try lia;
    destruct j as [| [| [| [| j]]]]; try lia;
    intros (_ & H1 & H2) (_ & H3 & H4); try reflexivity; exfalso; qc_lra.
Qed.

Lemma order_curve_inside (n : nat) :
  Forall strictly_inside (@order_curve Qc _ n).
Proof.
  induction n as [| n IH]; [exact o1_hilbert_inside |].
  cbn [order_curve]. rewrite !Forall_app, !Forall_map.
  repeat split;
    (eapply Forall_impl; [| exact IH]); intros p Hp;
    (eapply proj1, quadrant_point_in_quadrant; [lia | exact Hp]).
Qed.

Lemma map_quadrant_point_in_quadrant (i : nat) (lo : list vec) (p : vec) :
  (i < 4)%nat -> Forall strictly_inside lo ->
  In p (map (quadrant_point i) lo) -> in_quadrant i p.
Proof.
  intros Hi Hlo Hin. apply in_map_iff in Hin. destruct Hin as (q & <- & Hq).
  apply quadrant_point_in_quadrant; [exact Hi |].
  rewrite Forall_forall in Hlo. now apply Hlo.
Qed.

Lemma o1_hilbert_NoDup : NoDup (@o1_hilbert Qc _).
Proof.
  unfold o1_hilbert.
  repeat constructor; cbn [In]; intros H;
    repeat (destruct H as [H | H];
            [apply POINT_AT_inj in H; destruct H as [Hx Hy]; qc_lra |]);
    exact H.
Qed.

Lemma order_curve_NoDup (n : nat) : NoDup (@order_curve Qc _ n).
Proof.
  induction n as [| n IH]; [exact o1_hilbert_NoDup |].
  pose proof (order_curve_inside n) as Hin.
  assert (Hblock : forall i, (i < 4)%nat ->
            NoDup (map (quadrant_point i) (order_curve n))).
  { intros i Hi. apply NoDup_map_injective; [| exact IH].
    intros p q _ _. now apply quadrant_point_injective. }
  assert (Hapart : forall i j p, (i < 4)%nat -> (j < 4)%nat -> i <> j ->
            In p (map (quadrant_point i) (order_curve n)) ->
            ~ In p (map (quadrant_point j) (order_curve n))).
  { intros i j p Hi Hj Hij Hp Hp'. apply Hij.
    apply (in_quadrant_unique i j p Hi Hj);
      eapply map_quadrant_point_in_quadrant; eauto. }
  cbn [order_curve].
  apply NoDup_app; [apply Hblock; lia | |].
  - apply NoDup_app; [apply Hblock; lia | |].
    + apply NoDup_app; [apply Hblock; lia | apply Hblock; lia |].
      intros p Hp. apply (Hapart 2%nat 3%nat); (lia || exact Hp).
    + intros p Hp Hp'. apply in_app_or in Hp'. destruct Hp' as [Hp' | Hp'].
      * apply (Hapart 1%nat 2%nat p) in Hp; (lia || contradiction).
      * apply (Hapart 1%nat 3%nat p) in Hp; (lia || contradiction).
  - intros p Hp Hp'. apply in_app_or in Hp'. destruct Hp' as [Hp' | Hp'].
    + apply (Hapart 0%nat 1%nat p) in Hp; (lia || contradiction).
    + apply in_app_or in Hp'. destruct Hp' as [Hp' | Hp'].
      * apply (Hapart 0%nat 2%nat p) in Hp; (lia || contradiction).
      * apply (Hapart 0%nat 3%nat p) in Hp; (lia || contradiction).
Qed.

End ExactCurve.

(** ** What [hilbert_create] returns *)

(** C5: [hilbert_create(1)] returns exactly the four points (0.25,0.75),
    (0.25,0.25), (0.75,0.25), (0.75,0.75), in that order; on doubles, and in
    exact arithmetic. *)
Theorem hilbert_create_order_1 :
  (forall junk : space_vec2 float,
     hilbert_create junk 1 false
     = Done (4, Some [ POINT_AT 0.25%float 0.75%float;
                       POINT_AT 0.25%float 0.25%float;
                       POINT_AT 0.75%float 0.25%float;
                       POINT_AT 0.75%float 0.75%float ]))
  /\ (forall junk : space_vec2 Qc,
        hilbert_create junk 1 false
        = Done (4, Some [ POINT_AT (Q2Qc (1 # 4)) (Q2Qc (3 # 4));
                          POINT_AT (Q2Qc (1 # 4)) (Q2Qc (1 # 4));
                          POINT_AT (Q2Qc (3 # 4)) (Q2Qc (1 # 4));
                          POINT_AT (Q2Qc (3 # 4)) (Q2Qc (3 # 4)) ])).
Proof. split; intros junk; reflexivity. Qed.

(** [hilbert_create(2)] on doubles: sixteen points, the first being the first
    point of order 1 reflected, rotated clockwise and scaled about (0,1). *)
Example hilbert_create_order_2 (junk : space_vec2 float) :
  hilbert_create junk 2 false
  = Done (16, Some [ POINT_AT 0.125%float 0.875%float;
                     POINT_AT 0.375%float 0.875%float;
                     POINT_AT 0.375%float 0.625%float;
                     POINT_AT 0.125%float 0.625%float;
                     POINT_AT 0.125%float 0.375%float;
                     POINT_AT 0.125%float 0.125%float;
                     POINT_AT 0.375%float 0.125%float;
                     POINT_AT 0.375%float 0.375%float;
                     POINT_AT 0.625%float 0.375%float;
                     POINT_AT 0.625%float 0.125%float;
                     POINT_AT 0.875%float 0.125%float;
                     POINT_AT 0.875%float 0.375%float;
                     POINT_AT 0.625%float 0.875%float;
                     POINT_AT 0.625%float 0.625%float;
                     POINT_AT 0.875%float 0.625%float;
                     POINT_AT 0.875%float 0.875%float ]).
Proof. vm_compute. reflexivity. Qed.

(** C4 fails on the code from order 16 on: [HILBERT_NUM_POINTS], whose comment
    promises [4^order], shifts the [int] 1 by [2 * order] places, which is
    undefined from 32 places on, although [4^order] fits a [size_t] up to
    order 31 and both casts of the macro are to [size_t]; the call never
    returns a sequence.  Nothing in [hilbert_create] excludes such an
    order. *)
Theorem hilbert_create_undefined_from_16 {space_pos_t : Type}
    {pos_ops : SpacePos space_pos_t} (junk : space_vec2 space_pos_t)
    (order : Z) :
  16 <= order <= 31 ->
  4 ^ order < 2 ^ 64
  /\ HILBERT_NUM_POINTS order = Undefined InvalidShift
  /\ hilbert_create junk order false = Undefined InvalidShift
  /\ ~ (exists (ret : Z) (pts : option (list (space_vec2 space_pos_t))),
          hilbert_create junk order false = Done (ret, pts)).
Proof.
  intros Ho.
  assert (E : hilbert_create junk order false = Undefined InvalidShift)
    by (apply hilbert_create_above_15; lia).
  repeat split.
  - apply Z.lt_le_trans with (4 ^ 32); [| reflexivity].
    apply Z.pow_lt_mono_r; lia.
  - apply HILBERT_NUM_POINTS_undefined; lia.
  - exact E.
  - intros (ret & pts & E'). rewrite E in E'. discriminate E'.
Qed.

(** The theorem at order 16, on doubles. *)
Lemma hilbert_create_undefined_at_16 :
  4 ^ 16 < 2 ^ 64
  /\ HILBERT_NUM_POINTS 16 = Undefined InvalidShift
  /\ hilbert_create (POINT_AT 0%float 0%float) 16 false
     = Undefined InvalidShift
  /\ ~ (exists (ret : Z) (pts : option (list (space_vec2 float))),
          hilbert_create (POINT_AT 0%float 0%float) 16 false
          = Done (ret, pts)).
Proof. apply hilbert_create_undefined_from_16. lia. Defined.

(** C2 fails on the code: with order 0 or -1 the guard
    [out == NULL && order >= 1] is false whatever [out] is, so the call goes
    on to allocate and ends in the undefined shift of [HILBERT_NUM_POINTS(-1)]
    (for order 0, in the recursive call) instead of returning -1. *)
Theorem hilbert_create_order_0_undefined {space_pos_t : Type}
    {pos_ops : SpacePos space_pos_t} (junk : space_vec2 space_pos_t)
    (out_is_null : bool) :
  hilbert_create junk 0 out_is_null = Undefined InvalidShift
  /\ hilbert_create junk (-1) out_is_null = Undefined InvalidShift.
Proof. destruct out_is_null; split; reflexivity. Qed.

(** X10: No call returns the value -1 with [*out = NULL], as the code after
    [fail:] reads: that code is reached only with a null [out], through which
    it stores. *)
Lemma hilbert_create_never_fails_cleanly {space_pos_t : Type}
    {pos_ops : SpacePos space_pos_t} (junk : space_vec2 space_pos_t)
    (order : Z) (out_is_null : bool) :
  - 2 ^ 31 <= order < 2 ^ 31 ->
  hilbert_create junk order out_is_null <> Done (to_size_t (-1), None).
Proof.
  intros Hint E. apply hilbert_create_Done in E; [| exact Hint].
  destruct E as (_ & _ & _ & E). discriminate E.
Qed.

(** X12: The composition the code performs at the orders 2 to 15: four blocks
    of length [4^(order-1)], the first reflected, rotated clockwise and
    scaled, the other three scaled only. *)
Lemma hilbert_create_blocks {space_pos_t : Type}
    {pos_ops : SpacePos space_pos_t} (junk : space_vec2 space_pos_t)
    (order : Z) :
  2 <= order <= 15 ->
  exists lo b0 b1 b2 b3 : list (space_vec2 space_pos_t),
    hilbert_create junk (order - 1) false = Done (4 ^ (order - 1), Some lo)
    /\ block_reflected_rotated true (POINT_AT lit_0 lit_1) lo = Done b0
    /\ block_scaled (POINT_AT lit_0 lit_0) lo = Done b1
    /\ block_scaled (POINT_AT lit_1 lit_0) lo = Done b2
    /\ block_scaled (POINT_AT lit_1 lit_1) lo = Done b3
    /\ Z.of_nat (length b0) = 4 ^ (order - 1)
    /\ Z.of_nat (length b1) = 4 ^ (order - 1)
    /\ Z.of_nat (length b2) = 4 ^ (order - 1)
    /\ Z.of_nat (length b3) = 4 ^ (order - 1)
    /\ hilbert_create junk order false
       = Done (4 ^ order, Some (b0 ++ b1 ++ b2 ++ b3)).
Proof.
  intros Ho. set (n := Z.to_nat (order - 2)).
  destruct (order_curve_blocks n) as (E0 & E1 & E2 & E3).
  exists (order_curve n), (map (quadrant_point 0) (order_curve n)),
    (map (quadrant_point 1) (order_curve n)),
    (map (quadrant_point 2) (order_curve n)),
    (map (quadrant_point 3) (order_curve n)).
  assert (Hlen : Z.of_nat (length (order_curve n)) = 4 ^ (order - 1))
    by (rewrite order_curve_length; f_equal; lia).
  rewrite !length_map.
  repeat (split; [first [assumption | idtac] |]).
  - rewrite hilbert_create_curve by lia. repeat f_equal. lia.
  - rewrite hilbert_create_curve by lia.
    replace (Z.to_nat (order - 1)) with (S n) by lia. reflexivity.
Qed.

(** C1 fails on the code at order 2: the last block of
    [hilbert_create(2)] is [hilbert_create(1)] scaled about (1,1) with no
    other transform, (0.625,0.875), (0.625,0.625), (0.875,0.625),
    (0.875,0.875); reflected, rotated counter-clockwise and scaled it would be
    (0.875,0.625), (0.625,0.625), (0.625,0.875), (0.875,0.875).  The branch
    that transforms it is guarded by [i == 4], and the loop stops at 3. *)
Theorem hilbert_create_order_2_last_block (junk : space_vec2 float) :
  exists lo arr : list (space_vec2 float),
    hilbert_create junk 1 false = Done (4, Some lo)
    /\ hilbert_create junk 2 false = Done (16, Some arr)
    /\ block_scaled (POINT_AT 1%float 1%float) lo = Done (skipn 12 arr)
    /\ skipn 12 arr = [ POINT_AT 0.625%float 0.875%float;
                        POINT_AT 0.625%float 0.625%float;
                        POINT_AT 0.875%float 0.625%float;
                        POINT_AT 0.875%float 0.875%float ]
    /\ block_reflected_rotated false (POINT_AT 1%float 1%float) lo
       = Done [ POINT_AT 0.875%float 0.625%float;
                POINT_AT 0.625%float 0.625%float;
                POINT_AT 0.625%float 0.875%float;
                POINT_AT 0.875%float 0.875%float ]
    /\ 0.625%float <> 0.875%float.
Proof.
  exists (order_curve 0), (order_curve 1).
  repeat split; try (vm_compute; reflexivity). float_neq.
Qed.

(** C10: for every order of at least 1, in exact arithmetic, the [4^order]
    points returned by [hilbert_create(order)] are pairwise distinct ([order]
    is an [int]). *)
Theorem hilbert_create_NoDup (junk : space_vec2 Qc) (order ret : Z)
    (pts : list (space_vec2 Qc)) :
  1 <= order < 2 ^ 31 ->
  hilbert_create junk order false = Done (ret, Some pts) ->
  NoDup pts /\ Z.of_nat (length pts) = 4 ^ order.
Proof.
  intros Ho E. apply hilbert_create_Done in E; [| lia].
  destruct E as (Ho' & _ & _ & [= ->]). split.
  - apply order_curve_NoDup.
  - rewrite order_curve_length. f_equal. lia.
Qed.

(** The theorem at order 2. *)
Lemma hilbert_create_NoDup_order_2 :
  NoDup (@order_curve Qc _ 1)
  /\ Z.of_nat (length (@order_curve Qc _ 1)) = 4 ^ 2.
Proof.
  apply (hilbert_create_NoDup (POINT_AT (Q2Qc 0) (Q2Qc 0)) 2 (4 ^ 2)).
  - lia.
  - vm_compute. reflexivity.
Defined.

(** ** The binary writer *)

Lemma firstn_add {A : Type} (a b : nat) (l : list A) :
  firstn (a + b) l = firstn a l ++ firstn b (skipn a l).
Proof.
  revert l. induction a as [| a IH]; intros l; [reflexivity |].
  destruct l as [| h t]; cbn [Nat.add firstn skipn app].
  - now rewrite firstn_nil.
  - now rewrite IH.
Qed.

(** The branchless expression for the size of a chunk is the smaller of what
    is left and [max_write]. *)
Lemma to_write_min (write_left : Z) :
  0 <= write_left < 2 ^ 64 ->
  to_size_t (to_size_t (c_gt write_left max_write * max_write) +
             to_size_t (c_le write_left max_write * write_left))
  = Z.min write_left max_write.
Proof.
  intros Hw. unfold c_gt, c_le, max_write.
  destruct (Z.gtb_spec write_left 65536) as [Hgt | Hle].
  - replace (write_left <=? 65536) with false by (symmetry; apply Z.leb_gt; lia).
    rewrite !Z.mul_0_l, Z.mul_1_l.
    rewrite (to_size_t_small 65536), (to_size_t_small 0) by lia.
    rewrite to_size_t_small by lia. lia.
  - replace (write_left <=? 65536) with true by (symmetry; apply Z.leb_le; lia).
    rewrite !Z.mul_0_l, Z.mul_1_l.
    rewrite (to_size_t_small write_left), (to_size_t_small 0) by lia.
    rewrite to_size_t_small by lia. lia.
Qed.

Section WriterFacts.
Context {A : Type}.
Variable bytes_of : A -> list byte.

(** From any position [i] the loop appends the elements [hc[i..len)], in
    order, when it is given fuel for the chunks that remain. *)
Lemma write_loop_appends (hc : list A) (len : Z) (fuel : nat) :
  forall (i : Z) (fp : FILE),
    0 <= i -> len <= Z.of_nat (length hc) ->
    Z.of_nat (length hc) * sizeof_space_vec2 < 2 ^ 64 ->
    len - i <= Z.of_nat fuel * max_write ->
    write_loop bytes_of fuel hc len i fp
    = Done (fp ++ flat_map bytes_of
                    (firstn (Z.to_nat (len - i)) (skipn (Z.to_nat i) hc))).
Proof.
  unfold sizeof_space_vec2, max_write.
  induction fuel as [| fuel IH]; intros i fp Hi Hlen Hfit Hfuel.
  - cbn [write_loop]. replace (i <? len) with false by (symmetry; apply Z.ltb_ge; lia).
    replace (Z.to_nat (len - i)) with 0%nat by lia.
    cbn [firstn flat_map]. now rewrite app_nil_r.
  - cbn [write_loop]. destruct (Z.ltb_spec i len) as [Hlt | Hge].
    + rewrite (to_size_t_small (len - i)) by lia.
      rewrite to_write_min by lia.
      rewrite (to_size_t_small (i + max_write)) by (unfold max_write; lia).
      unfold fwrite, max_write.
      replace (Z.to_nat i + Z.to_nat (Z.min (len - i) 65536) <=? length hc)%nat
        with true by (symmetry; apply Nat.leb_le; lia).
      cbn [bind].
      rewrite IH by lia. f_equal.
      rewrite <- app_assoc, <- flat_map_app. do 2 f_equal.
      destruct (Z.le_gt_cases (len - i) 65536) as [Hlast | Hmore].
      * (* the last chunk *)
        replace (Z.to_nat (len - (i + 65536))) with 0%nat by lia.
        rewrite Z.min_l by exact Hlast. cbn [firstn]. now rewrite app_nil_r.
      * (* a full chunk, and more to come *)
        rewrite Z.min_r by lia.
        replace (Z.to_nat (len - i))
          with (Z.to_nat 65536 + Z.to_nat (len - (i + 65536)))%nat by lia.
        rewrite firstn_add, skipn_skipn. do 3 f_equal. lia.
    + replace (Z.to_nat (len - i)) with 0%nat by lia.
      cbn [firstn flat_map]. now rewrite app_nil_r.
Qed.

(** C7: the chunked writer emits exactly the bytes of the points
    [hc[0..len)] in sequence order: its output is that of one [fwrite] of all
    [len] elements, the stream followed by the bytes of each point in turn. *)
Theorem write_hilbert_curve_unchunked (hc : list A) (len : Z) (fp : FILE) :
  0 <= len <= Z.of_nat (length hc) ->
  Z.of_nat (length hc) * sizeof_space_vec2 < 2 ^ 64 ->
  write_hilbert_curve bytes_of hc len fp = fwrite bytes_of hc 0 len fp
  /\ fwrite bytes_of hc 0 len fp
     = Done (fp ++ flat_map bytes_of (firstn (Z.to_nat len) hc)).
Proof.
  intros Hlen Hfit.
  assert (E : fwrite bytes_of hc 0 len fp
              = Done (fp ++ flat_map bytes_of (firstn (Z.to_nat len) hc))).
  { unfold fwrite. cbn [Z.to_nat Nat.add skipn].
    replace (Z.to_nat len <=? length hc)%nat with true
      by (symmetry; apply Nat.leb_le; lia).
    reflexivity. }
  split; [| exact E]. rewrite E. unfold write_hilbert_curve.
  rewrite write_loop_appends; try lia.
  - rewrite Z.sub_0_r. reflexivity.
  - unfold max_write. rewrite Z.sub_0_r.
    pose proof (Z.div_mod len 65536 ltac:(lia)) as Hdm.
    pose proof (Z.mod_pos_bound len 65536 ltac:(lia)) as Hmod.
    pose proof (Z.div_pos len 65536 ltac:(lia) ltac:(lia)) as Hdiv.
    lia.
Qed.

End WriterFacts.

(** The theorem on 70000 one-byte elements, which take two chunks. *)
Lemma write_hilbert_curve_two_chunks :
  let hc := repeat "a"%byte (Z.to_nat 70000) in
  write_hilbert_curve (fun b : byte => [b]) hc 70000 []
    = fwrite (fun b : byte => [b]) hc 0 70000 []
  /\ fwrite (fun b : byte => [b]) hc 0 70000 []
    = Done ([] ++ flat_map (fun b : byte => [b]) (firstn (Z.to_nat 70000) hc)).
Proof.
  intros hc. apply write_hilbert_curve_unchunked; subst hc;
    rewrite repeat_length, Z2Nat.id by lia.
  - lia.
  - reflexivity.
Defined.

(** ** The curve on doubles *)

Lemma float_same_eq (a b : float) : float_same a b = true -> a = b.
Proof. apply FloatAxioms.Leibniz.eqb_spec. Qed.

(** The grid of order 2 holds the eighths 1/8, 3/8, 5/8, 7/8. *)
Example grid_double_order_2 :
  map (grid_double 1) (grid_indices 1)
  = [0.125%float; 0.375%float; 0.625%float; 0.875%float].
Proof. vm_compute. reflexivity. Qed.

Lemma In_indices_from (count : nat) :
  forall k j : Z, In j (indices_from count k) <-> k <= j < k + Z.of_nat count.
Proof.
  induction count as [| count IH]; intros k j; cbn [indices_from In].
  - lia.
  - rewrite IH. lia.
Qed.

Lemma In_grid_indices (n : nat) (k : Z) :
  In k (grid_indices n) <-> 0 <= k < 2 ^ (Z.of_nat n + 1).
Proof.
  unfold grid_indices. rewrite In_indices_from.
  rewrite Nat2Z.inj_pow. replace (Z.of_nat (n + 1)) with (Z.of_nat n + 1) by lia.
  reflexivity.
Qed.

(** Checked on every double of the grids of the orders 1 to 15. *)
Lemma range_ok_all : forallb range_ok (seq 0 15) = true.
Proof. vm_compute. reflexivity. Qed.

(** Checked on every double of the grids of the orders 1 to 14. *)
Lemma closure_ok_all : forallb closure_ok (seq 0 14) = true.
Proof. vm_compute. reflexivity. Qed.

Lemma on_grid_in_unit (n : nat) (v : float) :
  (n <= 14)%nat -> on_grid n v -> in_unit_double v = true.
Proof.
  intros Hn (k & Hk & ->).
  pose proof range_ok_all as Hall. rewrite forallb_forall in Hall.
  specialize (Hall n ltac:(apply in_seq; lia)). unfold range_ok in Hall.
  rewrite forallb_forall in Hall.
  apply Hall. now apply In_grid_indices.
Qed.

Lemma pow2_succ (n : nat) :
  2 ^ (Z.of_nat (S n) + 1) = 2 * 2 ^ (Z.of_nat n + 1).
Proof.
  replace (Z.of_nat (S n) + 1) with (Z.of_nat n + 1 + 1) by lia.
  rewrite Z.pow_add_r by lia. lia.
Qed.

Lemma pow2_pos (n : nat) : 0 < 2 ^ (Z.of_nat n + 1).
Proof. apply Z.pow_pos_nonneg; lia. Qed.

(** On doubles the four coordinate maps act on the grid as on its indices. *)
Lemma grid_double_step (n : nat) (k : Z) :
  (n <= 13)%nat -> 0 <= k < 2 ^ (Z.of_nat n + 1) ->
  let h := 2 ^ (Z.of_nat n + 1) in
  scale_coord lit_0 (grid_double n k) = grid_double (S n) k
  /\ scale_coord lit_1 (grid_double n k) = grid_double (S n) (k + h)
  /\ scale_coord lit_0 (reflect_rotate_x (grid_double n k))
     = grid_double (S n) (h - k - 1)
  /\ scale_coord lit_1 (reflect_rotate_y (grid_double n k))
     = grid_double (S n) (2 * h - k - 1).
Proof.
  intros Hn Hk h.
  pose proof closure_ok_all as Hall. rewrite forallb_forall in Hall.
  specialize (Hall n ltac:(apply in_seq; lia)). unfold closure_ok in Hall.
  rewrite forallb_forall in Hall.
  specialize (Hall k (proj2 (In_grid_indices n k) Hk)). cbv zeta in Hall.
  rewrite !andb_true_iff in Hall.
  destruct Hall as (((E0 & E1) & Ex) & Ey).
  apply float_same_eq in E0, E1, Ex, Ey. repeat split; assumption.
Qed.

Lemma on_grid_step (n : nat) (v : float) :
  (n <= 13)%nat -> on_grid n v ->
  on_grid (S n) (scale_coord lit_0 v)
  /\ on_grid (S n) (scale_coord lit_1 v)
  /\ on_grid (S n) (scale_coord lit_0 (reflect_rotate_x v))
  /\ on_grid (S n) (scale_coord lit_1 (reflect_rotate_y v)).
Proof.
  intros Hn (k & Hk & ->).
  destruct (grid_double_step n k Hn Hk) as (E0 & E1 & Ex & Ey).
  pose proof (pow2_pos n) as Hp.
  unfold on_grid. rewrite pow2_succ.
  repeat split; eexists; (split; [| eassumption]); lia.
Qed.

Lemma quadrant_point_coords {space_pos_t : Type}
    {pos_ops : SpacePos space_pos_t} (p : space_vec2 space_pos_t) :
  quadrant_point 0 p
    = POINT_AT (scale_coord lit_0 (reflect_rotate_x (y p)))
               (scale_coord lit_1 (reflect_rotate_y (x p)))
  /\ quadrant_point 1 p
    = POINT_AT (scale_coord lit_0 (x p)) (scale_coord lit_0 (y p))
  /\ quadrant_point 2 p
    = POINT_AT (scale_coord lit_1 (x p)) (scale_coord lit_0 (y p))
  /\ quadrant_point 3 p
    = POINT_AT (scale_coord lit_1 (x p)) (scale_coord lit_1 (y p)).
Proof. destruct p as [a b]. repeat split; reflexivity. Qed.

Lemma quadrant_point_on_grid (n i : nat) (p : space_vec2 float) :
  (n <= 13)%nat -> (i < 4)%nat ->
  point_on_grid n p -> point_on_grid (S n) (quadrant_point i p).
Proof.
  intros Hn Hi [Hx Hy].
  destruct (on_grid_step n (x p) Hn Hx) as (Hx0 & Hx1 & _ & Hxy).
  destruct (on_grid_step n (y p) Hn Hy) as (Hy0 & Hy1 & Hyx & _).
  destruct (quadrant_point_coords p) as (E0 & E1 & E2 & E3).
  destruct i as [| [| [| [| i]]]]; try lia;
    [rewrite E0 | rewrite E1 | rewrite E2 | rewrite E3];
    split; assumption.
Qed.

(** On doubles, every coordinate of the curve of order [n + 1] is on the grid
    of that order, up to order 15: no operation of the loop rounds. *)
Lemma order_curve_on_grid (n : nat) :
  (n <= 14)%nat -> Forall (point_on_grid n) (@order_curve float _ n).
Proof.
  induction n as [| n IH]; intros Hn.
  - unfold order_curve, o1_hilbert, point_on_grid, on_grid.
    repeat constructor; cbn [x y];
      first [ exists 0; split; [lia | vm_compute; reflexivity]
            | exists 1; split; [lia | vm_compute; reflexivity] ].
  - specialize (IH ltac:(lia)). cbn [order_curve].
    rewrite !Forall_app, !Forall_map.
    repeat split; (eapply Forall_impl; [| exact IH]); intros p Hp;
      (apply quadrant_point_on_grid; [lia | lia | exact Hp]).
Qed.

(** C6: for every order of at least 1, every coordinate of every point of the
    sequence returned by [hilbert_create(order)] lies in the closed interval
    [0,1]: on doubles, and in exact arithmetic ([order] is an [int]). *)
Theorem hilbert_create_in_unit_square :
  (forall (junk : space_vec2 float) (order ret : Z)
          (pts : list (space_vec2 float)),
      1 <= order < 2 ^ 31 ->
      hilbert_create junk order false = Done (ret, Some pts) ->
      Forall in_unit_square_double pts)
  /\ (forall (junk : space_vec2 Qc) (order ret : Z)
             (pts : list (space_vec2 Qc)),
         1 <= order < 2 ^ 31 ->
         hilbert_create junk order false = Done (ret, Some pts) ->
         Forall in_unit_square pts).
Proof.
  split; intros junk order ret pts Ho E;
    apply hilbert_create_Done in E; try lia;
    destruct E as (Ho' & _ & _ & [= ->]).
  - eapply Forall_impl; [| apply order_curve_on_grid; lia].
    intros p [Hx Hy]. split; eapply on_grid_in_unit; try eassumption; lia.
  - eapply Forall_impl; [| apply order_curve_inside].
    exact strictly_inside_in_unit_square.
Qed.

(** The theorem at order 2, on doubles and in exact arithmetic. *)
Lemma hilbert_create_in_unit_square_order_2 :
  Forall in_unit_square_double (@order_curve float _ 1)
  /\ Forall in_unit_square (@order_curve Qc _ 1).
Proof.
  split.
  - apply (proj1 hilbert_create_in_unit_square
                 (POINT_AT 0%float 0%float) 2 (4 ^ 2)).
    + lia.
    + vm_compute. reflexivity.
  - apply (proj2 hilbert_create_in_unit_square
                 (POINT_AT (Q2Qc 0) (Q2Qc 0)) 2 (4 ^ 2)).
    + lia.
    + vm_compute. reflexivity.
Defined.

(** ** The curve on doubles and the curve in exact arithmetic

    Both are the integer curve [index_curve], read on the grid of doubles and
    on the grid of rationals: up to order 15 the double arithmetic of the
    program is exact. *)

(** Checked on every double of the grids of the orders 1 to 15. *)
Lemma decode_ok_all : forallb decode_ok (seq 0 15) = true.
Proof. vm_compute. reflexivity. Qed.

Lemma half_pow_pow2 (m : nat) : (inject_Z (2 ^ Z.of_nat m) * half_pow m == 1)%Q.
Proof.
  induction m as [| m IH].
  - reflexivity.
  - rewrite Nat2Z.inj_succ, Z.pow_succ_r by lia.
    rewrite inject_Z_mult. cbn [half_pow]. 
    change (inject_Z 2) with 2%Q. lra.
Qed.

Ltac inject_Z_lra :=
  unfold Z.sub;
  repeat (rewrite inject_Z_plus || rewrite inject_Z_mult || rewrite inject_Z_opp);
  change (inject_Z 1) with 1%Q; change (inject_Z 2) with 2%Q;
  lra.

Lemma grid_exact_step (n : nat) (k : Z) :
  let h := 2 ^ (Z.of_nat n + 1) in
  scale_coord lit_0 (grid_exact n k) = grid_exact (S n) k
  /\ scale_coord lit_1 (grid_exact n k) = grid_exact (S n) (k + h)
  /\ scale_coord lit_0 (reflect_rotate_x (grid_exact n k))
     = grid_exact (S n) (h - k - 1)
  /\ scale_coord lit_1 (reflect_rotate_y (grid_exact n k))
     = grid_exact (S n) (2 * h - k - 1).
Proof.
  intros h.
  pose proof (half_pow_pow2 (n + 2)) as Hu.
  replace (Z.of_nat (n + 2)) with (Z.of_nat n + 1 + 1) in Hu by lia.
  rewrite Z.pow_add_r in Hu by lia. fold h in Hu.
  rewrite inject_Z_mult in Hu. change (inject_Z (2 ^ 1)) with 2%Q in Hu.
  set (z := inject_Z (2 * k + 1)). set (H := inject_Z h) in *.
  assert (E2 : (inject_Z (2 * (k + h) + 1) == z + 2 * H)%Q)
    by (unfold z, H; inject_Z_lra).
  assert (E3 : (inject_Z (2 * (h - k - 1) + 1) == 2 * H - z)%Q)
    by (unfold z, H; inject_Z_lra).
  assert (E4 : (inject_Z (2 * (2 * h - k - 1) + 1) == 4 * H - z)%Q)
    by (unfold z, H; inject_Z_lra).
  unfold scale_coord, reflect_rotate_x, reflect_rotate_y, SPACE_REFLECT_POINT,
    grid_exact.
  cbn [Nat.add half_pow]. fold z.
  set (u := half_pow (n + 2)) in *.
  repeat split; qc_to_q; rewrite ?E2, ?E3, ?E4.
  - lra.
  - lra.
  - lra.
  - lra.
Qed.

Lemma index_quadrant_in_range (n i : nat) (k : Z * Z) :
  index_in_range n k -> index_in_range (S n) (index_quadrant n i k).
Proof.
  unfold index_in_range, index_quadrant. rewrite pow2_succ.
  pose proof (pow2_pos n) as Hp.
  destruct k as [kx ky]. cbn [fst snd].
  destruct i as [| [| [| i]]]; cbn [fst snd]; lia.
Qed.

Lemma index_curve_in_range (n : nat) : Forall (index_in_range n) (index_curve n).
Proof.
  induction n as [| n IH].
  - unfold index_curve, index_in_range. repeat constructor; cbn; lia.
  - cbn [index_curve]. rewrite !Forall_app, !Forall_map.
    repeat split; (eapply Forall_impl; [| exact IH]); intros k Hk;
      now apply index_quadrant_in_range.
Qed.

Lemma quadrant_point_grid_double (n i : nat) (k : Z * Z) :
  (n <= 13)%nat -> (i < 4)%nat -> index_in_range n k ->
  quadrant_point i (grid_point_double n k)
  = grid_point_double (S n) (index_quadrant n i k).
Proof.
  intros Hn Hi [Hx Hy]. destruct k as [kx ky]. cbn [fst snd] in *.
  destruct (grid_double_step n kx Hn Hx) as (Hx0 & Hx1 & _ & Hxy).
  destruct (grid_double_step n ky Hn Hy) as (Hy0 & Hy1 & Hyx & _).
  destruct (quadrant_point_coords (grid_point_double n (kx, ky)))
    as (E0 & E1 & E2 & E3).
  unfold grid_point_double in *. cbn [fst snd x y] in *.
  destruct i as [| [| [| [| i]]]]; try lia;
    [rewrite E0 | rewrite E1 | rewrite E2 | rewrite E3];
    unfold index_quadrant; cbn [fst snd]; f_equal; assumption.
Qed.

Lemma quadrant_point_grid_exact (n i : nat) (k : Z * Z) :
  (i < 4)%nat ->
  quadrant_point i (grid_point_exact n k)
  = grid_point_exact (S n) (index_quadrant n i k).
Proof.
  intros Hi. destruct k as [kx ky].
  destruct (grid_exact_step n kx) as (Hx0 & Hx1 & _ & Hxy).
  destruct (grid_exact_step n ky) as (Hy0 & Hy1 & Hyx & _).
  destruct (quadrant_point_coords (grid_point_exact n (kx, ky)))
    as (E0 & E1 & E2 & E3).
  unfold grid_point_exact in *. cbn [fst snd x y] in *.
  destruct i as [| [| [| [| i]]]]; try lia;
    [rewrite E0 | rewrite E1 | rewrite E2 | rewrite E3];
    unfold index_quadrant; cbn [fst snd]; f_equal; assumption.
Qed.

Lemma map_quadrant_indices {T : Type} {ops : SpacePos T}
    (point : nat -> Z * Z -> space_vec2 T) (n i : nat) (ks : list (Z * Z)) :
  (forall k, In k ks ->
     quadrant_point i (point n k) = point (S n) (index_quadrant n i k)) ->
  map (quadrant_point i) (map (point n) ks)
  = map (point (S n)) (map (index_quadrant n i) ks).
Proof.
  intros Hstep. rewrite !map_map. apply map_ext_in. exact Hstep.
Qed.

(** On doubles, up to order 15, the curve is the integer curve read on the
    grid of doubles. *)
Lemma order_curve_double_indices (n : nat) :
  (n <= 14)%nat ->
  @order_curve float _ n = map (grid_point_double n) (index_curve n).
Proof.
  induction n as [| n IH]; intros Hn.
  - vm_compute. reflexivity.
  - cbn [order_curve index_curve]. rewrite IH by lia. rewrite !map_app.
    pose proof (index_curve_in_range n) as Hr. rewrite Forall_forall in Hr.
    repeat f_equal; apply map_quadrant_indices; intros k Hk;
      apply quadrant_point_grid_double; auto; lia.
Qed.

(** In exact arithmetic, at every order, the curve is the integer curve read
    on the grid of rationals. *)
Lemma order_curve_exact_indices (n : nat) :
  @order_curve Qc _ n = map (grid_point_exact n) (index_curve n).
Proof.
  induction n as [| n IH].
  - unfold order_curve, o1_hilbert, index_curve, grid_point_exact, grid_exact.
    cbn [map fst snd]. repeat f_equal; apply Qc_is_canon; reflexivity.
  - cbn [order_curve index_curve]. rewrite IH. rewrite !map_app.
    repeat f_equal; apply map_quadrant_indices; intros k Hk;
      apply quadrant_point_grid_exact; lia.
Qed.

Lemma odd_of_grid_double (n : nat) (k : Z) :
  (n <= 14)%nat -> 0 <= k < 2 ^ (Z.of_nat n + 1) ->
  odd_of n (grid_double n k) = Uint63.of_Z (2 * k + 1).
Proof.
  intros Hn Hk.
  pose proof decode_ok_all as Hall. rewrite forallb_forall in Hall.
  specialize (Hall n ltac:(apply in_seq; lia)). unfold decode_ok in Hall.
  rewrite forallb_forall in Hall.
  apply Uint63.eqb_correct, Hall. now apply In_grid_indices.
Qed.

Lemma grid_double_injective (n : nat) (k k' : Z) :
  (n <= 14)%nat ->
  0 <= k < 2 ^ (Z.of_nat n + 1) -> 0 <= k' < 2 ^ (Z.of_nat n + 1) ->
  grid_double n k = grid_double n k' -> k = k'.
Proof.
  intros Hn Hk Hk' E. apply (f_equal (odd_of n)) in E.
  rewrite !odd_of_grid_double in E by assumption.
  apply (f_equal Uint63.to_Z) in E. rewrite !Uint63.of_Z_spec in E.
  assert (Hb : 2 ^ (Z.of_nat n + 1) <= 2 ^ 15)
    by (apply Z.pow_le_mono_r; lia).
  change (2 ^ 15) with 32768 in Hb.
  assert (Hw : wB = 9223372036854775808) by reflexivity.
  rewrite !Z.mod_small in E by lia. lia.
Qed.

Lemma grid_point_double_injective (n : nat) (k k' : Z * Z) :
  (n <= 14)%nat -> index_in_range n k -> index_in_range n k' ->
  grid_point_double n k = grid_point_double n k' -> k = k'.
Proof.
  intros Hn [Hx Hy] [Hx' Hy'] E. destruct k as [kx ky], k' as [kx' ky'].
  unfold grid_point_double in E. cbn [fst snd] in *.
  apply POINT_AT_inj in E. destruct E as [Ex Ey].
  apply grid_double_injective in Ex, Ey; try assumption. now subst.
Qed.

Lemma index_curve_NoDup (n : nat) : NoDup (index_curve n).
Proof.
  apply (NoDup_map_inv (grid_point_exact n)).
  rewrite <- order_curve_exact_indices. apply order_curve_NoDup.
Qed.

Lemma order_curve_double_NoDup (n : nat) :
  (n <= 14)%nat -> NoDup (@order_curve float _ n).
Proof.
  intros Hn. rewrite order_curve_double_indices by exact Hn.
  pose proof (index_curve_in_range n) as Hr. rewrite Forall_forall in Hr.
  apply NoDup_map_injective; [| apply index_curve_NoDup].
  intros k k' Hk Hk'. apply grid_point_double_injective; auto.
Qed.

(** X13: At the orders 1 to 15 the program, on doubles, and its model in exact
    arithmetic return the same points of the grid, in the same order. *)
Lemma hilbert_create_double_exact (junk : space_vec2 float)
    (junk' : space_vec2 Qc) (order : Z) :
  1 <= order <= 15 ->
  let n := Z.to_nat (order - 1) in
  hilbert_create junk order false
    = Done (4 ^ order, Some (map (grid_point_double n) (index_curve n)))
  /\ hilbert_create junk' order false
    = Done (4 ^ order, Some (map (grid_point_exact n) (index_curve n))).
Proof.
  intros Ho n. rewrite !hilbert_create_curve by exact Ho. fold n.
  rewrite order_curve_double_indices by lia.
  rewrite order_curve_exact_indices. split; reflexivity.
Qed.

(** X14: On doubles too the points returned are pairwise distinct. *)
Lemma hilbert_create_NoDup_double (junk : space_vec2 float) (order ret : Z)
    (pts : list (space_vec2 float)) :
  1 <= order < 2 ^ 31 ->
  hilbert_create junk order false = Done (ret, Some pts) ->
  NoDup pts.
Proof.
  intros Ho E. apply hilbert_create_Done in E; [| lia].
  destruct E as (Ho' & _ & _ & [= ->]). apply order_curve_double_NoDup. lia.
Qed.

(** * Further properties *)

(** ** The array operations on part of a buffer *)

Section ArrayLoopFacts.
Context {space_pos_t : Type} {pos_ops : SpacePos space_pos_t}.

Local Abbreviation vec := (space_vec2 space_pos_t).

Lemma for_each_again (f g : vec -> vec) (arr : list vec) (len : nat) :
  (w <- for_each f arr len ;; for_each g w len)
  = for_each (fun p => g (f p)) arr len.
Proof.
  revert arr. induction len as [| len IH]; intros arr; [reflexivity |].
  destruct arr as [| p rest]; [reflexivity |].
  cbn [for_each]. rewrite <- IH.
  destruct (for_each f rest len) as [r | e]; reflexivity.
Qed.

(** X1: Each of the five array operations, run to a length [len] within the
    buffer, transforms the first [len] points and leaves the others as they
    are; the rotations act as [rotated] says. *)
Theorem array_operations_touch_prefix (arr : list vec) (len : nat)
    (axis scale : space_pos_t) (origin : vec) :
  (len <= length arr)%nat ->
  space_reflect_y arr (Z.of_nat len) axis
    = Done (map (reflect_y_point axis) (firstn len arr) ++ skipn len arr)
  /\ space_reflect_x arr (Z.of_nat len) axis
    = Done (map (reflect_x_point axis) (firstn len arr) ++ skipn len arr)
  /\ space_rotate_c arr (Z.of_nat len) origin
    = Done (map (rotated member_x origin) (firstn len arr) ++ skipn len arr)
  /\ space_rotate_cc arr (Z.of_nat len) origin
    = Done (map (rotated member_y origin) (firstn len arr) ++ skipn len arr)
  /\ space_scale arr (Z.of_nat len) scale origin
    = Done (map (scale_point (POINT_AT scale scale) origin) (firstn len arr)
            ++ skipn len arr).
Proof.
  intros Hlen.
  unfold space_reflect_y, space_reflect_x, space_rotate_c, space_rotate_cc,
    space_scale.
  rewrite Nat2Z.id, !for_each_prefix by exact Hlen.
  repeat split; do 2 f_equal; apply map_ext; intros p;
    apply rotate_point_rotated.
Qed.

(** X2: Each of the five array operations is undefined when [len] exceeds the
    number of points in the buffer. *)
Theorem array_operations_overrun (arr : list vec) (len : Z)
    (axis scale : space_pos_t) (origin : vec) :
  Z.of_nat (length arr) < len ->
  space_reflect_y arr len axis = Undefined OutOfBounds
  /\ space_reflect_x arr len axis = Undefined OutOfBounds
  /\ space_rotate_c arr len origin = Undefined OutOfBounds
  /\ space_rotate_cc arr len origin = Undefined OutOfBounds
  /\ space_scale arr len scale origin = Undefined OutOfBounds.
Proof.
  intros Hlen.
  unfold space_reflect_y, space_reflect_x, space_rotate_c, space_rotate_cc,
    space_scale.
  rewrite !for_each_overrun by lia. repeat split.
Qed.

(** X3: [space_reflect_y] and [space_reflect_x] commute, in any arithmetic and
    for any [len]: the first touches only x coordinates, the second only y
    coordinates. *)
Theorem space_reflect_y_x_commute (arr : list vec) (len : Z)
    (axis_y axis_x : space_pos_t) :
  (w <- space_reflect_y arr len axis_y ;; space_reflect_x w len axis_x)
  = (w <- space_reflect_x arr len axis_x ;; space_reflect_y w len axis_y).
Proof.
  unfold space_reflect_y, space_reflect_x. rewrite !for_each_again. reflexivity.
Qed.

End ArrayLoopFacts.

(** The theorem on two points of doubles, the first of which is
    transformed. *)
Lemma array_operations_touch_prefix_one_of_two :
  let arr := [POINT_AT 1%float 2%float; POINT_AT 3%float 4%float] in
  let origin := POINT_AT 0%float 0%float in
  space_reflect_y arr (Z.of_nat 1) 0.5%float
    = Done (map (reflect_y_point 0.5%float) (firstn 1 arr) ++ skipn 1 arr)
  /\ space_reflect_x arr (Z.of_nat 1) 0.5%float
    = Done (map (reflect_x_point 0.5%float) (firstn 1 arr) ++ skipn 1 arr)
  /\ space_rotate_c arr (Z.of_nat 1) origin
    = Done (map (rotated member_x origin) (firstn 1 arr) ++ skipn 1 arr)
  /\ space_rotate_cc arr (Z.of_nat 1) origin
    = Done (map (rotated member_y origin) (firstn 1 arr) ++ skipn 1 arr)
  /\ space_scale arr (Z.of_nat 1) 2%float origin
    = Done (map (scale_point (POINT_AT 2%float 2%float) origin) (firstn 1 arr)
            ++ skipn 1 arr).
Proof.
  intros arr origin. apply array_operations_touch_prefix. subst arr. simpl. lia.
Defined.

(** The theorem on one point of doubles and [len = 2]. *)
Lemma array_operations_overrun_two_of_one :
  let arr := [POINT_AT 1%float 2%float] in
  let origin := POINT_AT 0%float 0%float in
  space_reflect_y arr 2 0.5%float = Undefined OutOfBounds
  /\ space_reflect_x arr 2 0.5%float = Undefined OutOfBounds
  /\ space_rotate_c arr 2 origin = Undefined OutOfBounds
  /\ space_rotate_cc arr 2 origin = Undefined OutOfBounds
  /\ space_scale arr 2 2%float origin = Undefined OutOfBounds.
Proof.
  intros arr origin. apply array_operations_overrun. subst arr. simpl. lia.
Defined.

(** ** Round trips and compositions in exact arithmetic *)

Section ExactCompositions.

Local Abbreviation vec := (space_vec2 Qc).

(** X4: In exact arithmetic, applying [space_reflect_x] twice with the same
    axis returns every point to its original coordinates, and the x
    coordinates are the original ones after each application. *)
Theorem space_reflect_x_twice_exact (arr : list vec) (axis : Qc) :
  exists once : list vec,
    space_reflect_x arr (Z.of_nat (length arr)) axis = Done once
    /\ map x once = map x arr
    /\ space_reflect_x once (Z.of_nat (length arr)) axis = Done arr.
Proof.
  exists (map (reflect_x_point axis) arr).
  unfold space_reflect_x. rewrite Nat2Z.id. split; [| split].
  - apply for_each_whole.
  - rewrite map_map. apply map_ext. intros [a b]. reflexivity.
  - rewrite <- (length_map (reflect_x_point axis)), for_each_whole.
    rewrite map_map. f_equal. rewrite <- (map_id arr) at 2.
    apply map_ext. intros [a b]. unfold_point_ops. f_equal. qc_lra.
Qed.

(** X5: In exact arithmetic, [space_rotate_cc] followed by [space_rotate_c]
    about the same origin returns every point to its original coordinates. *)
Theorem space_rotate_cc_c_exact (arr : list vec) (origin : vec) :
  exists turned : list vec,
    space_rotate_cc arr (Z.of_nat (length arr)) origin = Done turned
    /\ space_rotate_c turned (Z.of_nat (length arr)) origin = Done arr.
Proof.
  exists (map (fun p => SPACE_ROTATE_POINT_ABOUT_ORIGIN p member_y origin) arr).
  split.
  - now apply space_rotate_cc_whole.
  - rewrite space_rotate_c_whole by (now rewrite length_map).
    rewrite map_map. f_equal. rewrite <- (map_id arr) at 2.
    apply map_ext. intros [a b]. destruct origin as [c d].
    unfold_point_ops. f_equal; qc_lra.
Qed.

(** X6: In exact arithmetic, two quarter turns in the same direction are a
    half turn, whichever the direction: [space_reflect_y] about the x
    coordinate of the origin followed by [space_reflect_x] about its y
    coordinate. *)
Theorem space_rotate_twice_exact (arr : list vec) (len : Z) (origin : vec) :
  (w <- space_rotate_c arr len origin ;; space_rotate_c w len origin)
  = (w <- space_reflect_y arr len (x origin) ;;
     space_reflect_x w len (y origin))
  /\ (w <- space_rotate_cc arr len origin ;; space_rotate_cc w len origin)
  = (w <- space_reflect_y arr len (x origin) ;;
     space_reflect_x w len (y origin)).
Proof.
  unfold space_rotate_c, space_rotate_cc, space_reflect_y, space_reflect_x.
  rewrite !for_each_again.
  assert (E : forall f g : vec -> vec, (forall p, f p = g p) ->
                for_each f arr (Z.to_nat len) = for_each g arr (Z.to_nat len)).
  { intros f g Hfg.
    destruct (Nat.le_gt_cases (Z.to_nat len) (length arr)) as [Hle | Hgt].
    - rewrite !for_each_prefix by exact Hle. do 2 f_equal.
      apply map_ext, Hfg.
    - now rewrite !for_each_overrun by exact Hgt. }
  split; apply E; intros [a b]; destruct origin as [c d];
    unfold_point_ops; f_equal; qc_lra.
Qed.

(** X7: In exact arithmetic, scaling by [s] and then by [t] about the same
    origin is scaling by [s * t] about it. *)
Theorem space_scale_twice_exact (arr : list vec) (len : Z) (s t : Qc)
    (origin : vec) :
  (w <- space_scale arr len s origin ;; space_scale w len t origin)
  = space_scale arr len (s * t)%Qc origin.
Proof.
  unfold space_scale. rewrite for_each_again.
  destruct (Nat.le_gt_cases (Z.to_nat len) (length arr)) as [Hle | Hgt].
  - rewrite !for_each_prefix by exact Hle. do 2 f_equal.
    apply map_ext. intros [a b]. destruct origin as [c d].
    unfold_point_ops. f_equal; qc_lra.
  - now rewrite !for_each_overrun by exact Hgt.
Qed.

End ExactCompositions.

(** ** The number of points and the outcomes of [hilbert_create] *)

(** X8: For an [int] order, [HILBERT_NUM_POINTS] is [4^order] when the order
    is between 0 and 15, and an undefined shift otherwise. *)
Theorem HILBERT_NUM_POINTS_int (order : Z) :
  - 2 ^ 31 <= order < 2 ^ 31 ->
  HILBERT_NUM_POINTS order
  = if (0 <=? order) && (order <=? 15) then Done (4 ^ order)
    else Undefined InvalidShift.
Proof.
  intros Hint.
  destruct (Z.leb_spec 0 order) as [H0 | H0];
    destruct (Z.leb_spec order 15) as [H15 | H15]; cbn [andb];
    first [ apply HILBERT_NUM_POINTS_defined; lia
          | apply HILBERT_NUM_POINTS_undefined; lia ].
Qed.

(** The theorem at order 16. *)
Lemma HILBERT_NUM_POINTS_int_16 :
  HILBERT_NUM_POINTS 16
  = if (0 <=? 16) && (16 <=? 15) then Done (4 ^ 16)
    else Undefined InvalidShift.
Proof. apply HILBERT_NUM_POINTS_int. lia. Defined.

Section HilbertOutcomes.
Context {space_pos_t : Type} {pos_ops : SpacePos space_pos_t}.

Local Abbreviation vec := (space_vec2 space_pos_t).

(** X9: With [malloc] taken to succeed (a failed [malloc] ends in the abort of
    [assert(arr != NULL)] or [assert(work != NULL)] instead), every call of
    [hilbert_create] with an [int] order ends in one of four ways: with an
    order from 1 to 15 and a non-null [out] it returns [4^order] and stores a
    buffer of that many points; with an order of at least 1 and a null [out]
    it stores through the null pointer; in every other case it reaches an
    undefined shift. *)
Theorem hilbert_create_outcomes (junk : vec) (order : Z) (out_is_null : bool) :
  - 2 ^ 31 <= order < 2 ^ 31 ->
  (1 <= order <= 15 -> out_is_null = false ->
     exists pts : list vec,
       hilbert_create junk order out_is_null = Done (4 ^ order, Some pts)
       /\ Z.of_nat (length pts) = 4 ^ order)
  /\ (1 <= order -> out_is_null = true ->
        hilbert_create junk order out_is_null = Undefined NullPointer)
  /\ (15 < order -> out_is_null = false ->
        hilbert_create junk order out_is_null = Undefined InvalidShift)
  /\ (order < 1 ->
        hilbert_create junk order out_is_null = Undefined InvalidShift).
Proof.
  intros Hint. repeat split.
  - intros Ho ->. exists (order_curve (Z.to_nat (order - 1))). split.
    + now apply hilbert_create_curve.
    + rewrite order_curve_length. f_equal. lia.
  - intros Ho ->. now apply hilbert_create_null_out.
  - intros Ho ->. apply hilbert_create_above_15. lia.
  - intros Ho. apply hilbert_create_below_1. lia.
Qed.

(** X11: What [hilbert_create] returns does not depend on what freshly
    allocated memory holds: every element of the buffer it stores has been
    written. *)
Theorem hilbert_create_ignores_junk (junk junk' : vec) (order : Z)
    (out_is_null : bool) :
  - 2 ^ 31 <= order < 2 ^ 31 ->
  hilbert_create junk order out_is_null
  = hilbert_create junk' order out_is_null.
Proof.
  intros Hint. now rewrite !hilbert_create_total by exact Hint.
Qed.

End HilbertOutcomes.

(** The theorem at order 3, on doubles, with a non-null [out]. *)
Lemma hilbert_create_outcomes_order_3 :
  (1 <= 3 <= 15 -> false = false ->
     exists pts : list (space_vec2 float),
       hilbert_create (POINT_AT 0%float 0%float) 3 false
       = Done (4 ^ 3, Some pts)
       /\ Z.of_nat (length pts) = 4 ^ 3)
  /\ (1 <= 3 -> false = true ->
        hilbert_create (POINT_AT 0%float 0%float) 3 false
        = Undefined NullPointer)
  /\ (15 < 3 -> false = false ->
        hilbert_create (POINT_AT 0%float 0%float) 3 false
        = Undefined InvalidShift)
  /\ (3 < 1 ->
        hilbert_create (POINT_AT 0%float 0%float) 3 false
        = Undefined InvalidShift).
Proof. apply hilbert_create_outcomes. lia. Defined.

(** The theorem at order 2, on doubles, for fresh memory holding zeros and
    fresh memory holding ones. *)
Lemma hilbert_create_ignores_junk_order_2 :
  hilbert_create (POINT_AT 0%float 0%float) 2 false
  = hilbert_create (POINT_AT 1%float 1%float) 2 false.
Proof. apply hilbert_create_ignores_junk. lia. Defined.

(** ** The cells the curve visits *)

Lemma index_curve_length (n : nat) :
  Z.of_nat (length (index_curve n)) = 4 ^ (Z.of_nat n + 1).
Proof.
  rewrite <- (length_map (grid_point_exact n)), <- order_curve_exact_indices.
  apply order_curve_length.
Qed.

(** The integer curve of order [n + 1] passes through every cell of the grid
    of [2^(n+1)] by [2^(n+1)] cells. *)
Lemma index_curve_covers (n : nat) :
  forall k : Z * Z, index_in_range n k -> In k (index_curve n).
Proof.
  induction n as [| n IH]; intros [kx ky]; unfold index_in_range; cbn [fst snd].
  - change (2 ^ (Z.of_nat 0 + 1)) with 2. intros [Hx Hy].
    assert (Hc : (kx = 0 \/ kx = 1) /\ (ky = 0 \/ ky = 1)) by lia.
    destruct Hc as [[-> | ->] [-> | ->]]; cbn; auto.
  - rewrite pow2_succ. pose proof (pow2_pos n) as Hp.
    set (h := 2 ^ (Z.of_nat n + 1)) in *. intros [Hx Hy].
    cbn [index_curve]. rewrite !in_app_iff, !in_map_iff.
    unfold index_quadrant, index_in_range in *. fold h.
    destruct (Z.lt_ge_cases kx h) as [Hxl | Hxh];
      destruct (Z.lt_ge_cases ky h) as [Hyl | Hyh].
    + right; left. exists (kx, ky). split; [reflexivity |].
      apply IH. cbn [fst snd]. lia.
    + left. exists (2 * h - 1 - ky, h - 1 - kx). cbn [fst snd]. split.
      * f_equal; lia.
      * apply IH. cbn [fst snd]. lia.
    + right; right; left. exists (kx - h, ky). cbn [fst snd]. split.
      * f_equal; lia.
      * apply IH. cbn [fst snd]. lia.
    + right; right; right. exists (kx - h, ky - h). cbn [fst snd]. split.
      * f_equal; lia.
      * apply IH. cbn [fst snd]. lia.
Qed.

(** X15: On doubles, for every order from 1 to 15, the points [hilbert_create]
    returns are exactly the centres of the cells of the grid of [2^order] by
    [2^order] cells over the unit square, each of them once. *)
Theorem hilbert_create_visits_every_cell (junk : space_vec2 float) (order : Z) :
  1 <= order <= 15 ->
  let n := Z.to_nat (order - 1) in
  exists pts : list (space_vec2 float),
    hilbert_create junk order false = Done (4 ^ order, Some pts)
    /\ Z.of_nat (length pts) = 4 ^ order
    /\ NoDup pts
    /\ (forall p : space_vec2 float,
          In p pts <->
          exists kx ky : Z,
            0 <= kx < 2 ^ order /\ 0 <= ky < 2 ^ order
            /\ p = POINT_AT (grid_double n kx) (grid_double n ky)).
Proof.
  intros Ho n. exists (order_curve n).
  assert (Hn : Z.of_nat n + 1 = order) by lia.
  repeat split.
  - now apply hilbert_create_curve.
  - now rewrite order_curve_length, Hn.
  - apply order_curve_double_NoDup. lia.
  - rewrite order_curve_double_indices by lia. rewrite in_map_iff.
    intros ([kx ky] & <- & Hk). exists kx, ky.
    pose proof (index_curve_in_range n) as Hr. rewrite Forall_forall in Hr.
    specialize (Hr _ Hk). unfold index_in_range in Hr. cbn [fst snd] in Hr.
    rewrite Hn in Hr. repeat split; try lia.
  - intros (kx & ky & Hx & Hy & ->).
    rewrite order_curve_double_indices by lia. apply in_map_iff.
    exists (kx, ky). split; [reflexivity |].
    apply index_curve_covers. unfold index_in_range. cbn [fst snd].
    rewrite Hn. lia.
Qed.

(** The theorem at order 2. *)
Lemma hilbert_create_visits_every_cell_order_2 :
  let n := Z.to_nat (2 - 1) in
  exists pts : list (space_vec2 float),
    hilbert_create (POINT_AT 0%float 0%float) 2 false = Done (4 ^ 2, Some pts)
    /\ Z.of_nat (length pts) = 4 ^ 2
    /\ NoDup pts
    /\ (forall p : space_vec2 float,
          In p pts <->
          exists kx ky : Z,
            0 <= kx < 2 ^ 2 /\ 0 <= ky < 2 ^ 2
            /\ p = POINT_AT (grid_double n kx) (grid_double n ky)).
Proof. apply hilbert_create_visits_every_cell. lia. Defined.

(** ** Where the curve starts, ends and passes from one block to the next *)

Lemma nth_error_blocks {A : Type} (b0 b1 b2 b3 : list A) (q j : nat) :
  length b0 = q -> length b1 = q -> length b2 = q -> (j < q)%nat ->
  nth_error (b0 ++ b1 ++ b2 ++ b3) j = nth_error b0 j
  /\ nth_error (b0 ++ b1 ++ b2 ++ b3) (q + j) = nth_error b1 j
  /\ nth_error (b0 ++ b1 ++ b2 ++ b3) (2 * q + j) = nth_error b2 j
  /\ nth_error (b0 ++ b1 ++ b2 ++ b3) (3 * q + j) = nth_error b3 j.
Proof.
  intros H0 H1 H2 Hj. repeat split.
  - apply nth_error_app1. lia.
  - rewrite nth_error_app2 by lia. rewrite nth_error_app1 by lia.
    f_equal. lia.
  - rewrite nth_error_app2 by lia. rewrite nth_error_app2 by lia.
    rewrite nth_error_app1 by lia. f_equal. lia.
  - rewrite nth_error_app2 by lia. rewrite nth_error_app2 by lia.
    rewrite nth_error_app2 by lia. f_equal. lia.
Qed.

Lemma index_curve_length_pos (n : nat) : (0 < length (index_curve n))%nat.
Proof.
  pose proof (index_curve_length n) as Hl.
  pose proof (pow4_pos (Z.of_nat n + 1)). lia.
Qed.

(** The integer curve starts in the bottom left cell and ends in the bottom
    right cell (y grows downwards). *)
Lemma index_curve_ends (n : nat) :
  let h := 2 ^ (Z.of_nat n + 1) in
  nth_error (index_curve n) 0 = Some (0, h - 1)
  /\ nth_error (index_curve n) (length (index_curve n) - 1)
     = Some (h - 1, h - 1).
Proof.
  induction n as [| n IH]; [split; reflexivity |].
  cbv zeta in *. rewrite pow2_succ.
  set (h := 2 ^ (Z.of_nat n + 1)) in *.
  destruct IH as [Hfirst Hlast].
  pose proof (index_curve_length_pos n) as Hpos.
  set (lo := index_curve n) in *. set (q := length lo) in *.
  cbn [index_curve]. fold lo.
  rewrite !length_app, !length_map. fold q.
  destruct (nth_error_blocks (map (index_quadrant n 0) lo)
              (map (index_quadrant n 1) lo) (map (index_quadrant n 2) lo)
              (map (index_quadrant n 3) lo) q 0)
    as (E0 & _); try (now rewrite length_map); try lia.
  destruct (nth_error_blocks (map (index_quadrant n 0) lo)
              (map (index_quadrant n 1) lo) (map (index_quadrant n 2) lo)
              (map (index_quadrant n 3) lo) q (q - 1))
    as (_ & _ & _ & E3); try (now rewrite length_map); try lia.
  split.
  - rewrite E0, nth_error_map, Hfirst. cbn [option_map].
    unfold index_quadrant. fold h. cbn [fst snd]. do 2 f_equal; lia.
  - replace (q + (q + (q + q)) - 1)%nat with (3 * q + (q - 1))%nat by lia.
    rewrite E3, nth_error_map, Hlast. cbn [option_map].
    unfold index_quadrant. fold h. cbn [fst snd]. do 2 f_equal; lia.
Qed.

(** Where the blocks of the integer curve of order [n + 2] meet: the index
    pairs on both sides of each of the three junctions. *)
Lemma index_curve_junctions (n : nat) :
  let h := 2 ^ (Z.of_nat n + 1) in
  let q := length (index_curve n) in
  let c := index_curve (S n) in
  (nth_error c (q - 1) = Some (0, h) /\ nth_error c q = Some (0, h - 1))
  /\ (nth_error c (2 * q - 1) = Some (h - 1, h - 1)
      /\ nth_error c (2 * q) = Some (h, h - 1))
  /\ (nth_error c (3 * q - 1) = Some (2 * h - 1, h - 1)
      /\ nth_error c (3 * q) = Some (h, 2 * h - 1)).
Proof.
  intros h q c. subst c.
  destruct (index_curve_ends n) as [Hfirst Hlast]. fold h q in Hfirst, Hlast.
  pose proof (index_curve_length_pos n) as Hpos. fold q in Hpos.
  cbn [index_curve]. set (lo := index_curve n) in *.
  destruct (nth_error_blocks (map (index_quadrant n 0) lo)
              (map (index_quadrant n 1) lo) (map (index_quadrant n 2) lo)
              (map (index_quadrant n 3) lo) q 0)
    as (_ & F1 & F2 & F3); try (now rewrite length_map); try lia.
  destruct (nth_error_blocks (map (index_quadrant n 0) lo)
              (map (index_quadrant n 1) lo) (map (index_quadrant n 2) lo)
              (map (index_quadrant n 3) lo) q (q - 1))
    as (L0 & L1 & L2 & _); try (now rewrite length_map); try lia.
  rewrite Nat.add_0_r in F1, F2, F3.
  replace (q + (q - 1))%nat with (2 * q - 1)%nat in L1 by lia.
  replace (2 * q + (q - 1))%nat with (3 * q - 1)%nat in L2 by lia.
  rewrite L0, L1, L2, F1, F2, F3, !nth_error_map, Hfirst, Hlast.
  cbn [option_map]. unfold index_quadrant. fold h. cbn [fst snd].
  repeat split; do 2 f_equal; lia.
Qed.

(** X16: On doubles, for every order from 1 to 15, the curve starts at the
    centre of the bottom left cell of the grid, [(1/2^(order+1), 1 -
    1/2^(order+1))], and ends at the centre of the bottom right cell. *)
Theorem hilbert_create_endpoints (junk : space_vec2 float) (order : Z) :
  1 <= order <= 15 ->
  let n := Z.to_nat (order - 1) in
  let h := 2 ^ order in
  exists pts : list (space_vec2 float),
    hilbert_create junk order false = Done (4 ^ order, Some pts)
    /\ nth_error pts 0
       = Some (POINT_AT (grid_double n 0) (grid_double n (h - 1)))
    /\ nth_error pts (Z.to_nat (4 ^ order - 1))
       = Some (POINT_AT (grid_double n (h - 1)) (grid_double n (h - 1))).
Proof.
  intros Ho n h. exists (order_curve n).
  assert (Hn : Z.of_nat n + 1 = order) by lia.
  destruct (index_curve_ends n) as [Hfirst Hlast]. rewrite Hn in *. fold h in Hfirst, Hlast.
  pose proof (index_curve_length n) as Hl. rewrite Hn in Hl.
  split; [now apply hilbert_create_curve |].
  rewrite order_curve_double_indices by lia. rewrite !nth_error_map.
  replace (Z.to_nat (4 ^ order - 1)) with (length (index_curve n) - 1)%nat
    by lia.
  rewrite Hfirst, Hlast. split; reflexivity.
Qed.

(** The theorem at order 2: the curve runs from (0.125, 0.875) to
    (0.875, 0.875). *)
Lemma hilbert_create_endpoints_order_2 :
  let n := Z.to_nat (2 - 1) in
  let h := 2 ^ 2 in
  exists pts : list (space_vec2 float),
    hilbert_create (POINT_AT 0%float 0%float) 2 false = Done (4 ^ 2, Some pts)
    /\ nth_error pts 0
       = Some (POINT_AT (grid_double n 0) (grid_double n (h - 1)))
    /\ nth_error pts (Z.to_nat (4 ^ 2 - 1))
       = Some (POINT_AT (grid_double n (h - 1)) (grid_double n (h - 1))).
Proof. apply hilbert_create_endpoints. lia. Defined.

(** X17: On doubles, for every order from 2 to 15, with [h = 2^(order-1)]
    cells across a quadrant and [q = 4^(order-1)] points in a block: the first
    block ends in the cell [(0, h)] and the second starts in the neighbouring
    cell [(0, h - 1)]; the second block ends in the cell [(h - 1, h - 1)] and
    the third starts in the neighbouring cell [(h, h - 1)]; the third block
    ends in the cell [(2h - 1, h - 1)] and the fourth starts in the cell [(h,
    2h - 1)], which is [h - 1] cells away in x and [h] cells away in y, so
    that both coordinates change: the curve jumps there. *)
Theorem hilbert_create_junctions (junk : space_vec2 float) (order : Z) :
  2 <= order <= 15 ->
  let n := Z.to_nat (order - 1) in
  let h := 2 ^ (order - 1) in
  let q := 4 ^ (order - 1) in
  let cell := fun kx ky : Z => POINT_AT (grid_double n kx) (grid_double n ky) in
  exists pts : list (space_vec2 float),
    hilbert_create junk order false = Done (4 ^ order, Some pts)
    /\ nth_error pts (Z.to_nat (q - 1)) = Some (cell 0 h)
    /\ nth_error pts (Z.to_nat q) = Some (cell 0 (h - 1))
    /\ nth_error pts (Z.to_nat (2 * q - 1)) = Some (cell (h - 1) (h - 1))
    /\ nth_error pts (Z.to_nat (2 * q)) = Some (cell h (h - 1))
    /\ nth_error pts (Z.to_nat (3 * q - 1)) = Some (cell (2 * h - 1) (h - 1))
    /\ nth_error pts (Z.to_nat (3 * q)) = Some (cell h (2 * h - 1))
    /\ grid_double n (2 * h - 1) <> grid_double n h
    /\ grid_double n (h - 1) <> grid_double n (2 * h - 1).
Proof.
  intros Ho n h q cell. exists (order_curve n).
  split; [apply hilbert_create_curve; lia |].
  set (m := Z.to_nat (order - 2)).
  assert (Hm : n = S m) by lia.
  assert (Hh : 2 ^ (Z.of_nat m + 1) = h) by (unfold h; f_equal; lia).
  pose proof (index_curve_length m) as Hl.
  replace (Z.of_nat m + 1) with (order - 1) in Hl by lia. fold q in Hl.
  pose proof (pow4_pos (order - 1) ltac:(lia)) as Hq. fold q in Hq.
  destruct (index_curve_junctions m) as ((J0 & J1) & (J2 & J3) & (J4 & J5)).
  rewrite Hh in *.
  rewrite order_curve_double_indices by lia. rewrite !nth_error_map.
  rewrite Hm.
  replace (Z.to_nat (q - 1)) with (length (index_curve m) - 1)%nat by lia.
  replace (Z.to_nat q) with (length (index_curve m)) by lia.
  replace (Z.to_nat (2 * q - 1)) with (2 * length (index_curve m) - 1)%nat
    by lia.
  replace (Z.to_nat (2 * q)) with (2 * length (index_curve m))%nat by lia.
  replace (Z.to_nat (3 * q - 1)) with (3 * length (index_curve m) - 1)%nat
    by lia.
  replace (Z.to_nat (3 * q)) with (3 * length (index_curve m))%nat by lia.
  rewrite J0, J1, J2, J3, J4, J5. subst cell. rewrite <- Hm.
  assert (Hh2 : 2 ^ (Z.of_nat n + 1) = 2 * h)
    by (rewrite Hm, pow2_succ, Hh; reflexivity).
  assert (Hhp : 2 <= h)
    by (unfold h; change 2 with (2 ^ 1) at 1; apply Z.pow_le_mono_r; lia).
  repeat split; try reflexivity;
    intros E; apply grid_double_injective in E; lia.
Qed.

(** The theorem at order 2: the points number 3 and 4 are (0.125, 0.625) and
    (0.125, 0.375), the points number 7 and 8 are (0.375, 0.375) and
    (0.625, 0.375), the points number 11 and 12 are (0.875, 0.375) and
    (0.625, 0.875). *)
Lemma hilbert_create_junctions_order_2 :
  let n := Z.to_nat (2 - 1) in
  let h := 2 ^ (2 - 1) in
  let q := 4 ^ (2 - 1) in
  let cell := fun kx ky : Z => POINT_AT (grid_double n kx) (grid_double n ky) in
  exists pts : list (space_vec2 float),
    hilbert_create (POINT_AT 0%float 0%float) 2 false = Done (4 ^ 2, Some pts)
    /\ nth_error pts (Z.to_nat (q - 1)) = Some (cell 0 h)
    /\ nth_error pts (Z.to_nat q) = Some (cell 0 (h - 1))
    /\ nth_error pts (Z.to_nat (2 * q - 1)) = Some (cell (h - 1) (h - 1))
    /\ nth_error pts (Z.to_nat (2 * q)) = Some (cell h (h - 1))
    /\ nth_error pts (Z.to_nat (3 * q - 1)) = Some (cell (2 * h - 1) (h - 1))
    /\ nth_error pts (Z.to_nat (3 * q)) = Some (cell h (2 * h - 1))
    /\ grid_double n (2 * h - 1) <> grid_double n h
    /\ grid_double n (h - 1) <> grid_double n (2 * h - 1).
Proof. apply hilbert_create_junctions. lia. Defined.

(** ** The quadrant of each block, on doubles *)

(** Checked on every double of the grids of the orders 1 to 15. *)
Lemma half_ok_all : forallb half_ok (seq 0 15) = true.
Proof. vm_compute. reflexivity. Qed.

Lemma grid_double_half (n : nat) (k : Z) :
  (n <= 14)%nat -> 0 <= k < 2 ^ (Z.of_nat n + 1) ->
  PrimFloat.ltb 0%float (grid_double n k) = true
  /\ PrimFloat.ltb (grid_double n k) 1%float = true
  /\ (k < 2 ^ Z.of_nat n -> PrimFloat.ltb (grid_double n k) 0.5%float = true)
  /\ (2 ^ Z.of_nat n <= k -> PrimFloat.ltb 0.5%float (grid_double n k) = true).
Proof.
  intros Hn Hk.
  pose proof half_ok_all as Hall. rewrite forallb_forall in Hall.
  specialize (Hall n ltac:(apply in_seq; lia)). unfold half_ok in Hall.
  rewrite forallb_forall in Hall.
  specialize (Hall k (proj2 (In_grid_indices n k) Hk)). cbv zeta in Hall.
  rewrite !andb_true_iff in Hall. destruct Hall as [[H0 H1] Hhalf].
  split; [exact H0 |]. split; [exact H1 |].
  destruct (Z.ltb_spec k (2 ^ Z.of_nat n)); split; intros; (lia || assumption).
Qed.

(** Iteration [i] of the loop puts every point of the grid of order [n + 1]
    into quadrant [i] of the grid of order [n + 2]. *)
Lemma grid_point_in_quadrant_double (n i : nat) (k : Z * Z) :
  (n <= 13)%nat -> (i < 4)%nat -> index_in_range n k ->
  in_quadrant_double i (grid_point_double (S n) (index_quadrant n i k)) = true.
Proof.
  intros Hn Hi Hk.
  pose proof (index_quadrant_in_range n i k Hk) as [Hx Hy].
  destruct (grid_double_half (S n) _ ltac:(lia) Hx) as (Hx0 & Hx1 & Hxl & Hxh).
  destruct (grid_double_half (S n) _ ltac:(lia) Hy) as (Hy0 & Hy1 & Hyl & Hyh).
  destruct Hk as [Hkx Hky]. destruct k as [kx ky].
  replace (Z.of_nat (S n)) with (Z.of_nat n + 1) in * by lia.
  unfold in_quadrant_double, strictly_inside_double, grid_point_double,
    index_quadrant in *.
  cbn [fst snd x y] in *.
  destruct i as [| [| [| [| i]]]]; try lia; cbn [fst snd] in *;
    rewrite Hx0, Hx1, Hy0, Hy1; cbn [andb];
    apply andb_true_iff; split;
    first [apply Hxl; lia | apply Hxh; lia | apply Hyl; lia | apply Hyh; lia].
Qed.

(** X18: On doubles, for every order from 2 to 15, the point number [j] of the
    curve lies in the open quadrant number [j / 4^(order-1)]: the four blocks
    fill the bottom left, top left, top right and bottom right quadrants, in
    that order (y grows downwards). *)
Theorem hilbert_create_quadrants (junk : space_vec2 float) (order : Z) :
  2 <= order <= 15 ->
  exists pts : list (space_vec2 float),
    hilbert_create junk order false = Done (4 ^ order, Some pts)
    /\ (forall (j : Z) (p : space_vec2 float),
          0 <= j -> nth_error pts (Z.to_nat j) = Some p ->
          in_quadrant_double (Z.to_nat (j / 4 ^ (order - 1))) p = true).
Proof.
  intros Ho. set (m := Z.to_nat (order - 2)).
  exists (order_curve (S m)).
  split; [rewrite hilbert_create_curve by lia; repeat f_equal; lia |].
  intros j p Hj Hp.
  rewrite order_curve_double_indices in Hp by lia.
  pose proof (index_curve_length m) as Hl.
  replace (Z.of_nat m + 1) with (order - 1) in Hl by lia.
  pose proof (pow4_pos (order - 1) ltac:(lia)) as Hq.
  set (q := 4 ^ (order - 1)) in *.
  assert (Hj4 : j < 4 * q).
  { assert (Hlt : (Z.to_nat j < length (map (grid_point_double (S m))
                                              (index_curve (S m))))%nat)
      by (apply nth_error_Some; rewrite Hp; discriminate).
    rewrite length_map in Hlt.
    pose proof (index_curve_length (S m)) as Hl'.
    replace (Z.of_nat (S m) + 1) with (order - 1 + 1) in Hl' by lia.
    rewrite pow4_succ in Hl' by lia. fold q in Hl'. lia. }
  set (i := j / q). set (r := j mod q).
  assert (Hjr : j = q * i + r) by (apply Z.div_mod; lia).
  assert (Hr : 0 <= r < q) by (apply Z.mod_pos_bound; lia).
  assert (Hi : 0 <= i < 4)
    by (split; [apply Z.div_pos; lia | apply Z.div_lt_upper_bound; lia]).
  rewrite nth_error_map in Hp. cbn [index_curve] in Hp.
  set (lo := index_curve m) in *.
  destruct (nth_error_blocks (map (index_quadrant m 0) lo)
              (map (index_quadrant m 1) lo) (map (index_quadrant m 2) lo)
              (map (index_quadrant m 3) lo) (length lo) (Z.to_nat r))
    as (E0 & E1 & E2 & E3); try (now rewrite length_map); try lia.
  pose proof (index_curve_in_range m) as Hrange. fold lo in Hrange.
  rewrite Forall_forall in Hrange.
  assert (Hblock : forall b : nat, (b < 4)%nat ->
            option_map (grid_point_double (S m))
              (nth_error (map (index_quadrant m b) lo) (Z.to_nat r)) = Some p ->
            in_quadrant_double b p = true).
  { intros b Hb E. rewrite nth_error_map in E.
    destruct (nth_error lo (Z.to_nat r)) as [k |] eqn:Ek; [| discriminate E].
    cbn [option_map] in E. injection E as <-.
    apply grid_point_in_quadrant_double; [lia | exact Hb |].
    apply Hrange. eapply nth_error_In. exact Ek. }
  assert (Hcase : i = 0 \/ i = 1 \/ i = 2 \/ i = 3) by lia.
  destruct Hcase as [Hi0 | [Hi1 | [Hi2 | Hi3]]].
  - rewrite Hi0. apply (Hblock 0%nat); [lia |]. rewrite <- E0, <- Hp.
    do 2 f_equal. lia.
  - rewrite Hi1. apply (Hblock 1%nat); [lia |]. rewrite <- E1, <- Hp.
    do 2 f_equal. lia.
  - rewrite Hi2. apply (Hblock 2%nat); [lia |]. rewrite <- E2, <- Hp.
    do 2 f_equal. lia.
  - rewrite Hi3. apply (Hblock 3%nat); [lia |]. rewrite <- E3, <- Hp.
    do 2 f_equal. lia.
Qed.

(** The theorem at order 2. *)
Lemma hilbert_create_quadrants_order_2 :
  exists pts : list (space_vec2 float),
    hilbert_create (POINT_AT 0%float 0%float) 2 false = Done (4 ^ 2, Some pts)
    /\ (forall (j : Z) (p : space_vec2 float),
          0 <= j -> nth_error pts (Z.to_nat j) = Some p ->
          in_quadrant_double (Z.to_nat (j / 4 ^ (2 - 1))) p = true).
Proof. apply hilbert_create_quadrants. lia. Defined.

(** ** The writers past the end of the buffer, and the text writer *)

Section WriterBounds.
Context {A : Type}.
Variable bytes_of : A -> list byte.

Lemma write_loop_overrun (hc : list A) (len : Z) (fuel : nat) :
  forall (i : Z) (fp : FILE),
    0 <= i <= Z.of_nat (length hc) -> Z.of_nat (length hc) < len ->
    len + max_write <= 2 ^ 64 ->
    len - i <= Z.of_nat fuel * max_write ->
    write_loop bytes_of fuel hc len i fp = Undefined OutOfBounds.
Proof.
  unfold max_write.
  induction fuel as [| fuel IH]; intros i fp Hi Hlen Hfit Hfuel; [lia |].
  cbn [write_loop].
  replace (i <? len) with true by (symmetry; apply Z.ltb_lt; lia).
  rewrite (to_size_t_small (len - i)) by lia.
  rewrite to_write_min by lia.
  rewrite (to_size_t_small (i + max_write)) by (unfold max_write; lia).
  unfold fwrite, max_write.
  destruct (Nat.leb_spec (Z.to_nat i + Z.to_nat (Z.min (len - i) 65536))
                         (length hc)) as [Hin | Hout]; [| reflexivity].
  cbn [bind]. apply IH; lia.
Qed.

(** X20: [write_hilbert_curve] with a [len] above the number of points in the
    buffer reads past its end, whatever it has written before. *)
Theorem write_hilbert_curve_overrun (hc : list A) (len : Z) (fp : FILE) :
  Z.of_nat (length hc) < len -> len + max_write <= 2 ^ 64 ->
  write_hilbert_curve bytes_of hc len fp = Undefined OutOfBounds.
Proof.
  intros Hlen Hfit. unfold write_hilbert_curve.
  apply write_loop_overrun; try lia.
  unfold max_write in *. rewrite Z.sub_0_r.
  pose proof (Z.div_mod len 65536 ltac:(lia)) as Hdm.
  pose proof (Z.mod_pos_bound len 65536 ltac:(lia)) as Hmod.
  pose proof (Z.div_pos len 65536 ltac:(lia) ltac:(lia)) as Hdiv.
  lia.
Qed.

(** The chunked writer on the first [len] elements of a buffer. *)
Lemma write_hilbert_curve_prefix (hc : list A) (len : Z) (fp : FILE) :
  0 <= len <= Z.of_nat (length hc) ->
  Z.of_nat (length hc) * sizeof_space_vec2 < 2 ^ 64 ->
  write_hilbert_curve bytes_of hc len fp
  = Done (fp ++ flat_map bytes_of (firstn (Z.to_nat len) hc)).
Proof.
  intros Hlen Hfit. unfold write_hilbert_curve.
  rewrite write_loop_appends; try lia.
  - rewrite Z.sub_0_r. reflexivity.
  - unfold max_write. rewrite Z.sub_0_r.
    pose proof (Z.div_mod len 65536 ltac:(lia)) as Hdm.
    pose proof (Z.mod_pos_bound len 65536 ltac:(lia)) as Hmod.
    pose proof (Z.div_pos len 65536 ltac:(lia) ltac:(lia)) as Hdiv.
    lia.
Qed.

End WriterBounds.

(** The theorem on one one-byte element and [len = 2]. *)
Lemma write_hilbert_curve_overrun_two_of_one :
  write_hilbert_curve (fun b : byte => [b]) ["a"%byte] 2 []
  = Undefined OutOfBounds.
Proof.
  apply write_hilbert_curve_overrun; [simpl; lia | unfold max_write; lia].
Defined.

Lemma skipn_nth_error {A : Type} (l : list A) (k : nat) (a : A) :
  nth_error l k = Some a -> skipn k l = a :: skipn (S k) l.
Proof.
  revert l. induction k as [| k IH]; intros [| h t] E; try discriminate E.
  - now injection E as ->.
  - cbn [nth_error] in E. cbn [skipn]. now apply IH.
Qed.

Section TextWriterFacts.
Context {space_pos_t : Type}.
Variable printf_15lf : space_pos_t -> list byte.

Local Abbreviation vec := (space_vec2 space_pos_t).

Lemma fprintf_point_appends (p : vec) (fp : FILE) :
  fprintf_point printf_15lf p fp = fp ++ fprintf_point printf_15lf p [].
Proof. reflexivity. Qed.

Lemma text_loop_appends (hc : list vec) (count : nat) :
  forall (k : nat) (fp : FILE),
    (k + count <= length hc)%nat ->
    for_range count (Z.of_nat k)
      (fun i fp => p <- index hc i ;; Done (fprintf_point printf_15lf p fp)) fp
    = Done (fp ++ flat_map (fun p => fprintf_point printf_15lf p [])
                    (firstn count (skipn k hc))).
Proof.
  induction count as [| count IH]; intros k fp Hk; cbn [for_range].
  - cbn [firstn flat_map]. now rewrite app_nil_r.
  - unfold index at 1. rewrite Nat2Z.id.
    destruct (nth_error hc k) as [p |] eqn:Ep;
      [| apply nth_error_None in Ep; lia].
    cbn [bind].
    replace (Z.of_nat k + 1) with (Z.of_nat (S k)) by lia.
    rewrite IH by lia.
    rewrite (fprintf_point_appends p fp), <- app_assoc. do 2 f_equal.
    rewrite (skipn_nth_error hc k p Ep). reflexivity.
Qed.

Lemma text_loop_overrun (hc : list vec) (count : nat) :
  forall (k : nat) (fp : FILE),
    (k <= length hc)%nat -> (length hc < k + count)%nat ->
    for_range count (Z.of_nat k)
      (fun i fp => p <- index hc i ;; Done (fprintf_point printf_15lf p fp)) fp
    = Undefined OutOfBounds.
Proof.
  induction count as [| count IH]; intros k fp Hk Hover; [lia |].
  cbn [for_range]. unfold index at 1. rewrite Nat2Z.id.
  destruct (nth_error hc k) as [p |] eqn:Ep; [| reflexivity].
  cbn [bind].
  assert (Hlt : (k < length hc)%nat)
    by (apply nth_error_Some; rewrite Ep; discriminate).
  replace (Z.of_nat k + 1) with (Z.of_nat (S k)) by lia.
  apply IH; lia.
Qed.

(** X21: [write_hilbert_curve_txt] prints one line per point for the first
    [len] points, in sequence order: what the binary writer emits when every
    point is encoded as its line of text. *)
Theorem write_hilbert_curve_txt_lines (hc : list vec) (len : Z) (fp : FILE) :
  0 <= len <= Z.of_nat (length hc) ->
  Z.of_nat (length hc) * sizeof_space_vec2 < 2 ^ 64 ->
  write_hilbert_curve_txt printf_15lf hc len fp
    = Done (fp ++ flat_map (fun p => fprintf_point printf_15lf p [])
                    (firstn (Z.to_nat len) hc))
  /\ write_hilbert_curve_txt printf_15lf hc len fp
    = write_hilbert_curve (fun p => fprintf_point printf_15lf p []) hc len fp.
Proof.
  intros Hlen Hfit.
  assert (E : write_hilbert_curve_txt printf_15lf hc len fp
              = Done (fp ++ flat_map (fun p => fprintf_point printf_15lf p [])
                              (firstn (Z.to_nat len) hc))).
  { unfold write_hilbert_curve_txt.
    rewrite (text_loop_appends hc (Z.to_nat len) 0) by (cbn [Nat.add]; lia).
    reflexivity. }
  split; [exact E |].
  rewrite E. symmetry. now apply write_hilbert_curve_prefix.
Qed.

(** X22: [write_hilbert_curve_txt] with a [len] above the number of points in
    the buffer reads past its end. *)
Theorem write_hilbert_curve_txt_overrun (hc : list vec) (len : Z) (fp : FILE) :
  Z.of_nat (length hc) < len ->
  write_hilbert_curve_txt printf_15lf hc len fp = Undefined OutOfBounds.
Proof.
  intros Hlen. unfold write_hilbert_curve_txt.
  apply (text_loop_overrun hc (Z.to_nat len) 0); lia.
Qed.

End TextWriterFacts.

(** The theorem on two points, the first of which is printed; a coordinate is
    printed as one character here. *)
Lemma write_hilbert_curve_txt_lines_one_of_two :
  let hc := [POINT_AT "1"%byte "2"%byte; POINT_AT "3"%byte "4"%byte] in
  let printf_15lf := fun b : byte => [b] in
  write_hilbert_curve_txt printf_15lf hc 1 []
    = Done ([] ++ flat_map (fun p => fprintf_point printf_15lf p [])
                    (firstn (Z.to_nat 1) hc))
  /\ write_hilbert_curve_txt printf_15lf hc 1 []
    = write_hilbert_curve (fun p => fprintf_point printf_15lf p []) hc 1 [].
Proof.
  intros hc printf_15lf. apply write_hilbert_curve_txt_lines; subst hc.
  - simpl. lia.
  - reflexivity.
Defined.

(** The theorem on one point and [len = 2]. *)
Lemma write_hilbert_curve_txt_overrun_two_of_one :
  write_hilbert_curve_txt (fun b : byte => [b])
    [POINT_AT "1"%byte "2"%byte] 2 []
  = Undefined OutOfBounds.
Proof. apply write_hilbert_curve_txt_overrun. simpl. lia. Defined.

(** ** The driver *)


Lemma to_long_long_small (z : Z) :
  - 2 ^ 63 <= z < 2 ^ 63 -> to_long_long z = z.
Proof. intros Hz. unfold to_long_long. rewrite Z.mod_small by lia. lia. Qed.

Lemma decimal_S (fuel : nat) (v : Z) :
  decimal (S fuel) v
  = (if v / 10 =? 0 then [] else decimal fuel (v / 10)) ++ [digit (v mod 10)].
Proof. reflexivity. Qed.

Lemma decimal_below_10 (fuel : nat) (v : Z) :
  0 <= v < 10 -> decimal (S fuel) v = [digit v].
Proof.
  intros Hv. rewrite decimal_S.
  rewrite (Z.div_small v 10), (Z.mod_small v 10) by lia. reflexivity.
Qed.

Lemma decimal_below_100 (fuel : nat) (v : Z) :
  10 <= v < 100 ->
  decimal (S (S fuel)) v = [digit (v / 10); digit (v mod 10)].
Proof.
  intros Hv.
  assert (Hd : 1 <= v / 10 < 10)
    by (split; [apply Z.div_le_lower_bound | apply Z.div_lt_upper_bound]; lia).
  rewrite decimal_S.
  replace (v / 10 =? 0) with false by (symmetry; apply Z.eqb_neq; lia).
  rewrite decimal_below_10 by lia.
  replace (v / 10 mod 10) with (v / 10) by (symmetry; apply Z.mod_small; lia).
  reflexivity.
Qed.

Lemma decimal_from_100 (fuel : nat) (v : Z) :
  100 <= v -> (3 <= length (decimal (S (S (S fuel))) v))%nat.
Proof.
  intros Hv.
  assert (Hd : 10 <= v / 10) by (apply Z.div_le_lower_bound; lia).
  assert (Hd' : 1 <= v / 10 / 10) by (apply Z.div_le_lower_bound; lia).
  rewrite !decimal_S.
  replace (v / 10 =? 0) with false by (symmetry; apply Z.eqb_neq; lia).
  replace (v / 10 / 10 =? 0) with false by (symmetry; apply Z.eqb_neq; lia).
  rewrite !length_app. cbn [length]. lia.
Qed.

(** X23: [sprintf(file_name, "o%02lli_hilbert", order)] stores the name
    [o<NN>_hilbert] for the orders 0 to 99; from order 100 on the text does
    not fit the twelve bytes of [file_name] and the store runs past its end. *)
Theorem sprintf_file_name_fits (order : Z) :
  0 <= order < 2 ^ 63 ->
  sprintf_file_name order
  = if order <? 100 then Done (file_name_of order)
    else Undefined OutOfBounds.
Proof.
  intros Ho. unfold sprintf_file_name, printf_02lli, printf_lli.
  rewrite to_long_long_small by lia.
  replace (order <? 0) with false by (symmetry; apply Z.ltb_ge; lia).
  destruct (Z.ltb_spec order 100) as [Hlt | Hge].
  - destruct (Z.lt_ge_cases order 10) as [H10 | H10].
    + rewrite decimal_below_10 by lia. unfold file_name_of.
      rewrite (Z.div_small order 10), (Z.mod_small order 10) by lia.
      reflexivity.
    + rewrite decimal_below_100 by lia. reflexivity.
  - pose proof (decimal_from_100 16 order Hge) as Hlen.
    set (text := decimal 19 order) in *.
    replace (2 - length text)%nat with 0%nat by lia.
    cbn [repeat app length]. rewrite length_app. cbn [length].
    unfold sizeof_file_name.
    destruct (Nat.leb_spec (S (length text + 8) + 1) 12); [lia | reflexivity].
Qed.

(** The theorem at order 7, whose file is [o07_hilbert]. *)
Lemma sprintf_file_name_fits_order_7 :
  sprintf_file_name 7
  = if 7 <? 100 then Done (file_name_of 7) else Undefined OutOfBounds.
Proof. apply sprintf_file_name_fits. lia. Defined.



Section DiskFacts.
Context {K : Type}.
Variable name : K -> list byte.
Variable content : K -> FILE.




End DiskFacts.


Section MainFacts.
Context {space_pos_t : Type} {pos_ops : SpacePos space_pos_t}.

Local Abbreviation vec := (space_vec2 space_pos_t).

Variable junk : vec.
Variable bytes_of : vec -> list byte.







End MainFacts.


(** ** Round trips on the points of a curve, on doubles *)

(** Checked on every double of the grids of the orders 1 to 15. *)
Lemma round_trip_ok_all : forallb round_trip_ok (seq 0 15) = true.
Proof. vm_compute. reflexivity. Qed.

Lemma grid_round_trip (n : nat) (v : float) :
  (n <= 14)%nat -> on_grid n v ->
  SPACE_REFLECT_POINT (SPACE_REFLECT_POINT v lit_05) lit_05 = v
  /\ pos_add (pos_sub (pos_add (pos_sub v lit_05) lit_05) lit_05) lit_05 = v.
Proof.
  intros Hn (k & Hk & ->).
  pose proof round_trip_ok_all as Hall. rewrite forallb_forall in Hall.
  specialize (Hall n ltac:(apply in_seq; lia)). unfold round_trip_ok in Hall.
  rewrite forallb_forall in Hall.
  specialize (Hall k (proj2 (In_grid_indices n k) Hk)). cbv zeta in Hall.
  apply andb_true_iff in Hall. destruct Hall as [E1 E2].
  apply float_same_eq in E1, E2. split; assumption.
Qed.

(** X19: On doubles, for every order from 1 to 15, the two round trips that
    round on arbitrary doubles are exact on the points [hilbert_create]
    returns: [space_reflect_y] about 0.5 applied twice gives the points back,
    and so does [space_rotate_c] followed by [space_rotate_cc] about the
    centre (0.5, 0.5). *)
Theorem hilbert_create_round_trips (junk : space_vec2 float) (order : Z) :
  1 <= order <= 15 ->
  exists pts once turned : list (space_vec2 float),
    hilbert_create junk order false = Done (4 ^ order, Some pts)
    /\ space_reflect_y pts (4 ^ order) 0.5%float = Done once
    /\ space_reflect_y once (4 ^ order) 0.5%float = Done pts
    /\ space_rotate_c pts (4 ^ order) (POINT_AT 0.5%float 0.5%float)
       = Done turned
    /\ space_rotate_cc turned (4 ^ order) (POINT_AT 0.5%float 0.5%float)
       = Done pts.
Proof.
  intros Ho. set (n := Z.to_nat (order - 1)).
  set (c := POINT_AT 0.5%float 0.5%float).
  exists (order_curve n), (map (reflect_y_point 0.5%float) (order_curve n)),
    (map (fun p => SPACE_ROTATE_POINT_ABOUT_ORIGIN p member_x c)
         (order_curve n)).
  assert (Hlen : 4 ^ order = Z.of_nat (length (@order_curve float _ n)))
    by (rewrite order_curve_length; f_equal; lia).
  pose proof (order_curve_on_grid n ltac:(lia)) as Hgrid.
  rewrite Forall_forall in Hgrid.
  split; [now apply hilbert_create_curve |].
  rewrite Hlen. repeat split.
  - now apply space_reflect_y_whole.
  - rewrite space_reflect_y_whole by (now rewrite length_map).
    rewrite map_map. f_equal. rewrite <- (map_id (order_curve n)) at 2.
    apply map_ext_in. intros [a b] Hp. apply Hgrid in Hp.
    destruct Hp as [Ha _]. cbn [x] in Ha.
    unfold reflect_y_point. cbn [x y]. f_equal.
    apply (grid_round_trip n a); [lia | exact Ha].
  - now apply space_rotate_c_whole.
  - rewrite space_rotate_cc_whole by (now rewrite length_map).
    rewrite map_map. f_equal. rewrite <- (map_id (order_curve n)) at 2.
    apply map_ext_in. intros [a b] Hp. apply Hgrid in Hp.
    destruct Hp as [Ha Hb]. cbn [x y] in Ha, Hb.
    destruct (grid_round_trip n a ltac:(lia) Ha) as [_ Ea].
    destruct (grid_round_trip n b ltac:(lia) Hb) as [Eb _].
    subst c. unfold_point_ops. f_equal; assumption.
Qed.

(** The theorem at order 2. *)
Lemma hilbert_create_round_trips_order_2 :
  exists pts once turned : list (space_vec2 float),
    hilbert_create (POINT_AT 0%float 0%float) 2 false = Done (4 ^ 2, Some pts)
    /\ space_reflect_y pts (4 ^ 2) 0.5%float = Done once
    /\ space_reflect_y once (4 ^ 2) 0.5%float = Done pts
    /\ space_rotate_c pts (4 ^ 2) (POINT_AT 0.5%float 0.5%float)
       = Done turned
    /\ space_rotate_cc turned (4 ^ 2) (POINT_AT 0.5%float 0.5%float)
       = Done pts.
Proof. apply hilbert_create_round_trips. lia. Defined.

(** ** Instances of the theorems on what [hilbert_create] returns *)

(** [hilbert_create_never_fails_cleanly] at order 1 with a null [out]. *)
Lemma hilbert_create_never_fails_cleanly_null_out :
  hilbert_create (POINT_AT 0%float 0%float) 1 true
  <> Done (to_size_t (-1), None).
Proof. apply hilbert_create_never_fails_cleanly. lia. Defined.

(** [hilbert_create_blocks] at order 2, on doubles. *)
Lemma hilbert_create_blocks_order_2 :
  exists lo b0 b1 b2 b3 : list (space_vec2 float),
    hilbert_create (POINT_AT 0%float 0%float) (2 - 1) false
    = Done (4 ^ (2 - 1), Some lo)
    /\ block_reflected_rotated true (POINT_AT lit_0 lit_1) lo = Done b0
    /\ block_scaled (POINT_AT lit_0 lit_0) lo = Done b1
    /\ block_scaled (POINT_AT lit_1 lit_0) lo = Done b2
    /\ block_scaled (POINT_AT lit_1 lit_1) lo = Done b3
    /\ Z.of_nat (length b0) = 4 ^ (2 - 1)
    /\ Z.of_nat (length b1) = 4 ^ (2 - 1)
    /\ Z.of_nat (length b2) = 4 ^ (2 - 1)
    /\ Z.of_nat (length b3) = 4 ^ (2 - 1)
    /\ hilbert_create (POINT_AT 0%float 0%float) 2 false
       = Done (4 ^ 2, Some (b0 ++ b1 ++ b2 ++ b3)).
Proof. apply hilbert_create_blocks. lia. Defined.

(** [hilbert_create_double_exact] at order 2. *)
Lemma hilbert_create_double_exact_order_2 :
  let n := Z.to_nat (2 - 1) in
  hilbert_create (POINT_AT 0%float 0%float) 2 false
    = Done (4 ^ 2, Some (map (grid_point_double n) (index_curve n)))
  /\ hilbert_create (POINT_AT (Q2Qc 0) (Q2Qc 0)) 2 false
    = Done (4 ^ 2, Some (map (grid_point_exact n) (index_curve n))).
Proof. apply hilbert_create_double_exact. lia. Defined.

(** [hilbert_create_NoDup_double] at order 2. *)
Lemma hilbert_create_NoDup_double_order_2 : NoDup (@order_curve float _ 1).
Proof.
  apply (hilbert_create_NoDup_double (POINT_AT 0%float 0%float) 2 (4 ^ 2)).
  - lia.
  - vm_compute. reflexivity.
Defined.

(** * Rounding of doubles *)

(** ** Rounding in [SpecFloat], on integers *)

Lemma digits2_pos_bounds (m : positive) :
  2 ^ (Zpos (digits2_pos m) - 1) <= Zpos m < 2 ^ Zpos (digits2_pos m).
Proof.
  induction m as [m IH | m IH |]; cbn [digits2_pos].
  - rewrite Pos2Z.inj_succ.
    replace (Z.succ (Zpos (digits2_pos m)) - 1) with (Z.succ (Zpos (digits2_pos m) - 1)) by lia.
    rewrite !Z.pow_succ_r by lia. lia.
  - rewrite Pos2Z.inj_succ.
    replace (Z.succ (Zpos (digits2_pos m)) - 1) with (Z.succ (Zpos (digits2_pos m) - 1)) by lia.
    rewrite !Z.pow_succ_r by lia. lia.
  - cbn. lia.
Qed.

Lemma digits2_pos_unique (m : positive) (d : Z) :
  2 ^ (d - 1) <= Zpos m < 2 ^ d -> Zpos (digits2_pos m) = d.
Proof.
  intros [Hlo Hhi]. pose proof (digits2_pos_bounds m) as [Hlo' Hhi'].
  set (d' := Zpos (digits2_pos m)) in *.
  assert (Hd : 0 < d).
  { destruct (Z.lt_ge_cases 0 d) as [H | H]; [exact H |].
    destruct (Z.eq_dec d 0) as [-> | Hn]; [cbn in Hhi; lia |].
    rewrite Z.pow_neg_r in Hhi by lia. lia. }
  destruct (Z.lt_trichotomy d' d) as [Hlt | [Heq | Hgt]]; [| exact Heq |].
  - assert (2 ^ d' <= 2 ^ (d - 1)) by (apply Z.pow_le_mono_r; lia). lia.
  - assert (2 ^ d <= 2 ^ (d' - 1)) by (apply Z.pow_le_mono_r; lia). lia.
Qed.

Lemma shr_1_m (mrs : shr_record) :
  0 <= shr_m mrs -> shr_m (shr_1 mrs) = shr_m mrs / 2.
Proof.
  destruct mrs as [m r s]. cbn [shr_m]. intros Hm.
  destruct m as [| [p | p |] | p]; cbn [shr_1 shr_m]; try lia;
    first [ apply (Z.div_unique _ 2 _ 0); lia
          | apply (Z.div_unique _ 2 _ 1); lia ].
Qed.

(** Shifting right by [p] places divides the mantissa by [2^p]. *)
Lemma iter_shr_1_m (p : positive) :
  forall mrs : shr_record,
    0 <= shr_m mrs ->
    shr_m (iter_pos shr_1 p mrs) = shr_m mrs / 2 ^ Zpos p.
Proof.
  induction p as [p IH | p IH |]; intros mrs Hm; cbn [iter_pos].
  - assert (H1 : 0 <= shr_m (shr_1 mrs))
      by (rewrite shr_1_m by exact Hm; apply Z.div_pos; lia).
    assert (H2 : 0 <= shr_m (iter_pos shr_1 p (shr_1 mrs)))
      by (rewrite IH by exact H1; apply Z.div_pos; lia).
    rewrite IH by exact H2. rewrite IH by exact H1. rewrite shr_1_m by exact Hm.
    rewrite !Z.div_div by lia. f_equal.
    rewrite Pos2Z.inj_xI. rewrite <- !Z.pow_add_r by lia.
    replace (1 + Zpos p + Zpos p) with (2 * Zpos p + 1) by lia.
    change 2 with (2 ^ 1) at 1. rewrite <- !Z.pow_add_r by lia. f_equal. lia.
  - assert (H2 : 0 <= shr_m (iter_pos shr_1 p mrs))
      by (rewrite IH by exact Hm; apply Z.div_pos; lia).
    rewrite IH by exact H2. rewrite IH by exact Hm.
    rewrite Z.div_div by lia. f_equal.
    rewrite Pos2Z.inj_xO. rewrite <- Z.pow_add_r by lia. f_equal. lia.
  - rewrite shr_1_m by exact Hm. reflexivity.
Qed.

(** Shifting out zeros leaves nothing to round. *)
Lemma iter_shr_1_exact (p : positive) :
  forall m : Z,
    0 <= m ->
    iter_pos shr_1 p (Build_shr_record (m * 2 ^ Zpos p) false false)
    = Build_shr_record m false false.
Proof.
  assert (Hone : forall m : Z, 0 <= m ->
            shr_1 (Build_shr_record (m * 2) false false)
            = Build_shr_record m false false).
  { intros [| q | q] Hm; try lia; [reflexivity |].
    replace (Zpos q * 2) with (Zpos q~0) by lia. reflexivity. }
  induction p as [p IH | p IH |]; intros m Hm; cbn [iter_pos].
  - replace (m * 2 ^ Zpos p~1) with (m * 2 ^ Zpos p * 2 ^ Zpos p * 2)
      by (replace (Zpos p~1) with (Zpos p + Zpos p + 1) by lia;
          rewrite !Z.pow_add_r by lia; change (2 ^ 1) with 2; lia).
    rewrite Hone by (apply Z.mul_nonneg_nonneg; [apply Z.mul_nonneg_nonneg |]; lia).
    rewrite IH by (apply Z.mul_nonneg_nonneg; lia). apply IH. exact Hm.
  - replace (m * 2 ^ Zpos p~0) with (m * 2 ^ Zpos p * 2 ^ Zpos p)
      by (replace (Zpos p~0) with (Zpos p + Zpos p) by lia;
          rewrite Z.pow_add_r by lia; lia).
    rewrite IH by (apply Z.mul_nonneg_nonneg; lia). apply IH. exact Hm.
  - change (2 ^ 1) with 2. apply Hone. exact Hm.
Qed.

Lemma round_nearest_even_bounds (q : Z) (l : location) :
  q <= round_nearest_even q l <= q + 1.
Proof.
  destruct l as [| [| |]]; cbn [round_nearest_even]; try lia.
  destruct (Z.even q); lia.
Qed.

(** The binary64 instance: 53 bits of precision, exponents up to 1024. *)
Lemma fexp_binary64 (e : Z) : fexp prec emax e = Z.max (e - 53) (-1074).
Proof. reflexivity. Qed.

Lemma shr_nonpos (mrs : shr_record) (e n : Z) : n <= 0 -> shr mrs e n = (mrs, e).
Proof. intros Hn. destruct n as [| p | p]; [reflexivity | lia | reflexivity]. Qed.

(** A mantissa that fits is not rounded. *)
Lemma binary_round_aux_fits (s : bool) (m : positive) (e : Z) :
  fexp prec emax (Zpos (digits2_pos m) + e) <= e -> e <= 971 ->
  binary_round_aux prec emax s (Zpos m) e loc_Exact = S754_finite s m e.
Proof.
  intros Hf He. unfold binary_round_aux, shr_fexp.
  cbn [Zdigits2 shr_record_of_loc].
  rewrite shr_nonpos by lia.
  cbn [shr_m loc_of_shr_record round_nearest_even Zdigits2 shr_record_of_loc].
  rewrite shr_nonpos by lia. cbn [shr_m].
  change (emax - prec) with 971.
  destruct (Z.leb_spec e 971); [reflexivity | lia].
Qed.

(** A mantissa that does not fit is shifted right and rounded to one of the
    two neighbours of the quotient. *)
Lemma binary_round_aux_rounds (s : bool) (m : positive) (e : Z) :
  let f := fexp prec emax (Zpos (digits2_pos m) + e) in
  e < f -> f <= 970 ->
  exists m1 : Z,
    represents s m1 f (binary_round_aux prec emax s (Zpos m) e loc_Exact)
    /\ Zpos m - 2 ^ (f - e) <= m1 * 2 ^ (f - e) <= Zpos m + 2 ^ (f - e).
Proof.
  intros f Hef Hf.
  pose proof (digits2_pos_bounds m) as [Hdlo Hdhi].
  set (d := Zpos (digits2_pos m)) in *.
  assert (Hfd : f = Z.max (d + e - 53) (-1074)) by (unfold f; now rewrite fexp_binary64).
  destruct (f - e) as [| p | p] eqn:Hn; try lia.
  assert (Hp : 0 < 2 ^ Zpos p) by (apply Z.pow_pos_nonneg; lia).
  set (q := Zpos m / 2 ^ Zpos p).
  assert (Hq : q * 2 ^ Zpos p <= Zpos m < (q + 1) * 2 ^ Zpos p).
  { pose proof (Z.div_mod (Zpos m) (2 ^ Zpos p) ltac:(lia)) as Hdm.
    pose proof (Z.mod_pos_bound (Zpos m) (2 ^ Zpos p) Hp) as Hmod.
    fold q in Hdm. lia. }
  assert (Hq0 : 0 <= q) by (apply Z.div_pos; lia).
  assert (Hq53 : q < 2 ^ 53).
  { apply Z.div_lt_upper_bound; [exact Hp |].
    rewrite <- Z.pow_add_r by lia.
    apply Z.lt_le_trans with (2 ^ d); [exact Hdhi |].
    apply Z.pow_le_mono_r; lia. }
  unfold binary_round_aux, shr_fexp.
  cbn [Zdigits2 shr_record_of_loc]. fold d. fold f. rewrite Hn.
  cbn [shr].
  set (mrs := iter_pos shr_1 p _).
  assert (Hm : shr_m mrs = q)
    by (unfold mrs; rewrite iter_shr_1_m by (cbn; lia); reflexivity).
  rewrite Hm.
  pose proof (round_nearest_even_bounds q (loc_of_shr_record mrs)) as Hr.
  set (m1 := round_nearest_even q (loc_of_shr_record mrs)) in *.
  replace (e + Zpos p) with f by lia.
  exists m1. split; [| nia].
  destruct m1 as [| m' | m'] eqn:Em1; [| | lia].
  - (* rounded to zero *)
    cbn [Zdigits2 shr_record_of_loc]. rewrite shr_nonpos
      by (rewrite fexp_binary64; lia).
    cbn [shr_m]. left. split; reflexivity.
  - destruct (Z.eq_dec (Zpos m') (2 ^ 53)) as [Ecarry | Hno].
    + (* the rounding carried into a 54th bit *)
      assert (Hd' : Zpos (digits2_pos m') = 54)
        by (apply digits2_pos_unique; rewrite Ecarry;
            change (2 ^ (54 - 1)) with (2 ^ 53); change (2 ^ 54) with (2 * 2 ^ 53); lia).
      cbn [Zdigits2 shr_record_of_loc]. rewrite Hd'.
      replace (fexp prec emax (54 + f) - f) with 1
        by (rewrite fexp_binary64; lia).
      cbn [shr iter_pos].
      assert (E : m' = 9007199254740992%positive) by (change (2 ^ 53) with 9007199254740992 in Ecarry; lia).
      subst m'. cbn [shr_1 shr_m].
      change (emax - prec) with 971.
      destruct (Z.leb_spec (f + 1) 971); [| lia].
      right. eexists _, _. split; [reflexivity |]. split; [lia |].
      replace (f + 1 - f) with 1 by lia. reflexivity.
    + assert (Hd' : Zpos (digits2_pos m') <= 53).
      { pose proof (digits2_pos_bounds m') as [Hlo' _].
        destruct (Z.le_gt_cases (Zpos (digits2_pos m')) 53) as [H | H]; [exact H |].
        assert (2 ^ 53 <= 2 ^ (Zpos (digits2_pos m') - 1))
          by (apply Z.pow_le_mono_r; lia).
        lia. }
      cbn [Zdigits2 shr_record_of_loc]. rewrite shr_nonpos
        by (rewrite fexp_binary64; lia).
      cbn [shr_m]. change (emax - prec) with 971.
      destruct (Z.leb_spec f 971); [| lia].
      right. exists m', f. split; [reflexivity |]. split; [lia |].
      rewrite Z.sub_diag. lia.
Qed.

Lemma Pos_iter_xO (m k : positive) :
  Zpos (Pos.iter xO m k) = Zpos m * 2 ^ Zpos k.
Proof.
  induction k as [| k IH] using Pos.peano_ind.
  - cbn [Pos.iter]. lia.
  - rewrite Pos.iter_succ, Pos2Z.inj_succ, Z.pow_succ_r by lia.
    rewrite Pos2Z.inj_xO, IH. lia.
Qed.

(** [binary_round]: the value [m * 2^e] is represented exactly when it fits,
    and with an error of at most one unit of the last place otherwise. *)
Lemma binary_round_spec (s : bool) (m : positive) (e : Z) :
  let f := fexp prec emax (Zpos (digits2_pos m) + e) in
  f <= 970 ->
  exists m1 : Z,
    represents s m1 f (binary_round prec emax s m e)
    /\ (f <= e -> m1 = Zpos m * 2 ^ (e - f))
    /\ (e < f ->
        Zpos m - 2 ^ (f - e) <= m1 * 2 ^ (f - e) <= Zpos m + 2 ^ (f - e)).
Proof.
  intros f Hf. unfold binary_round, shl_align. fold f.
  destruct (f - e) as [| p | p] eqn:Hn.
  - (* f = e *)
    assert (f = e) by lia.
    rewrite binary_round_aux_fits by (fold f; lia).
    exists (Zpos m). split; [| split; [| lia]].
    + right. exists m, e. split; [reflexivity |]. split; [lia |].
      replace (e - f) with 0 by lia. lia.
    + intros _. replace (e - f) with 0 by lia. lia.
  - (* e < f *)
    destruct (binary_round_aux_rounds s m e ltac:(fold f; lia) ltac:(fold f; lia))
      as (m1 & Hrep & Hb).
    fold f in Hrep, Hb.
    exists m1. split; [exact Hrep |]. split; [lia | intros _; rewrite <- Hn; exact Hb].
  - (* f < e: the mantissa is shifted left first *)
    assert (Hd : Zpos (digits2_pos (Pos.iter xO m p)) = Zpos (digits2_pos m) + Zpos p).
    { pose proof (digits2_pos_bounds m) as [Hlo Hhi].
      apply digits2_pos_unique. rewrite Pos_iter_xO.
      replace (Zpos (digits2_pos m) + Zpos p - 1)
        with (Zpos (digits2_pos m) - 1 + Zpos p) by lia.
      rewrite !Z.pow_add_r by lia.
      assert (0 < 2 ^ Zpos p) by (apply Z.pow_pos_nonneg; lia). nia. }
    rewrite binary_round_aux_fits.
    + exists (Zpos (Pos.iter xO m p)). split; [| split; [| lia]].
      * right. eexists _, _. split; [reflexivity |]. split; [lia |].
        rewrite Z.sub_diag. lia.
      * intros _. rewrite Pos_iter_xO. do 2 f_equal. lia.
    + rewrite Hd. replace (Zpos (digits2_pos m) + Zpos p + f)
        with (Zpos (digits2_pos m) + e) by lia. fold f. lia.
    + lia.
Qed.

Section RationalValues.
Local Open Scope Q_scope.

Lemma Qpow2_add (a b : Z) : Qpow2 (a + b) == Qpow2 a * Qpow2 b.
Proof. unfold Qpow2. apply Qpower_plus. discriminate. Qed.

Lemma Qpow2_pos (a : Z) : 0 < Qpow2 a.
Proof. unfold Qpow2. apply Qpower_0_lt. reflexivity. Qed.

Lemma Qpow2_inject (a : Z) : (0 <= a)%Z -> Qpow2 a == inject_Z (2 ^ a).
Proof. intros Ha. unfold Qpow2. now rewrite Zpower_Qpower. Qed.

Lemma Qpow2_le (a b : Z) : (a <= b)%Z -> Qpow2 a <= Qpow2 b.
Proof. intros Hab. unfold Qpow2. apply Qpower_le_compat_l; [exact Hab | discriminate]. Qed.

Lemma Qpow2_le_inv (a b : Z) : Qpow2 a <= Qpow2 b -> (a <= b)%Z.
Proof. intros H. unfold Qpow2 in H. apply Qpower_le_compat_l_inv in H; [exact H | reflexivity]. Qed.

Lemma rounding_unit_Qpow2 : Qpow2 (-52) == rounding_unit.
Proof. reflexivity. Qed.

Lemma sign_of_cases (s : bool) : sign_of s == 1 \/ sign_of s == -1.
Proof. destruct s; [right | left]; reflexivity. Qed.

(** The value a rounded result stands for. *)
Lemma represents_value (s : bool) (m1 f : Z) (r : spec_float) :
  represents s m1 f r ->
  exists v : Q, SFvalue r = Some v /\ v == sign_of s * (inject_Z m1 * Qpow2 f).
Proof.
  intros [[-> ->] | (m' & e' & -> & Hfe & <-)]; cbn [SFvalue]; eexists; split;
    try reflexivity.
  - change (inject_Z 0) with 0. ring.
  - rewrite inject_Z_mult.
    rewrite <- (Qpow2_inject (e' - f)) by lia.
    replace e' with ((e' - f) + f)%Z at 1 by lia.
    rewrite Qpow2_add. ring.
Qed.

(** [binary_round] keeps the sign and moves the magnitude [m * 2^e] by at
    most the fraction [2^-52] of itself, when [e] is no smaller than the
    least exponent and the magnitude is below [2^1023]. *)
Lemma binary_round_value (s : bool) (m : positive) (e : Z) :
  (-1074 <= e)%Z -> (Zpos (digits2_pos m) + e <= 1023)%Z ->
  let X := inject_Z (Zpos m) * Qpow2 e in
  exists v w : Q,
    SFvalue (binary_round prec emax s m e) = Some v
    /\ v == sign_of s * w
    /\ X - rounding_unit * X <= w <= X + rounding_unit * X.
Proof.
  intros He Hd X.
  pose proof (digits2_pos_bounds m) as [Hlo Hhi].
  set (d := Zpos (digits2_pos m)) in *.
  assert (HX : 0 < X).
  { unfold X. apply Qmult_lt_0_compat; [| apply Qpow2_pos].
    change 0 with (inject_Z 0). rewrite <- Zlt_Qlt. lia. }
  assert (Hu : 0 <= rounding_unit * X)
    by (apply Qmult_le_0_compat; [discriminate | now apply Qlt_le_weak]).
  destruct (binary_round_spec s m e) as (m1 & Hrep & Hfit & Hround).
  { rewrite fexp_binary64. fold d. lia. }
  rewrite fexp_binary64 in Hrep, Hfit, Hround. fold d in Hrep, Hfit, Hround.
  set (f := Z.max (d + e - 53) (-1074)) in *.
  destruct (represents_value s m1 f _ Hrep) as (v & Ev & Hv).
  exists v, (inject_Z m1 * Qpow2 f). split; [exact Ev |]. split; [exact Hv |].
  destruct (Z.le_gt_cases f e) as [Hfe | Hef].
  - (* exact *)
    rewrite (Hfit Hfe), inject_Z_mult.
    rewrite <- (Qpow2_inject (e - f)) by lia.
    assert (E : inject_Z (Zpos m) * Qpow2 (e - f) * Qpow2 f == X).
    { unfold X. replace e with ((e - f) + f)%Z at 2 by lia.
      rewrite Qpow2_add. ring. }
    rewrite E. split; lra.
  - (* rounded: one unit of the last place is at most [2^-52] of [X] *)
    assert (Hf : f = (d + e - 53)%Z) by lia.
    specialize (Hround ltac:(lia)). destruct Hround as [Hr1 Hr2].
    assert (Hpf : Qpow2 f == Qpow2 (f - e) * Qpow2 e)
      by (rewrite <- Qpow2_add; replace (f - e + e)%Z with f by lia; reflexivity).
    assert (Hpi : Qpow2 (f - e) == inject_Z (2 ^ (f - e)))
      by (apply Qpow2_inject; lia).
    assert (Hw : X - Qpow2 f <= inject_Z m1 * Qpow2 f <= X + Qpow2 f).
    { rewrite Zle_Qle in Hr1, Hr2.
      unfold Z.sub in Hr1 at 1.
      rewrite inject_Z_plus, inject_Z_mult, inject_Z_opp in Hr1.
      rewrite inject_Z_plus, inject_Z_mult in Hr2.
      rewrite <- Hpi in Hr1, Hr2.
      pose proof (Qpow2_pos e) as Hpe.
      rewrite Hpf. unfold X.
      set (P := Qpow2 (f - e)) in *. set (E := Qpow2 e) in *.
      set (M := inject_Z (Zpos m)) in *. set (M1 := inject_Z m1) in *.
      split.
      + apply Qle_trans with ((M + - P) * E); [lra |].
        setoid_replace (M1 * (P * E)) with ((M1 * P) * E) by ring.
        apply Qmult_le_compat_r; [exact Hr1 | lra].
      + apply Qle_trans with ((M + P) * E); [| lra].
        setoid_replace (M1 * (P * E)) with ((M1 * P) * E) by ring.
        apply Qmult_le_compat_r; [exact Hr2 | lra]. }
    assert (Hulp : Qpow2 f <= rounding_unit * X).
    { rewrite Hf. replace (d + e - 53)%Z with (-52 + ((d - 1) + e))%Z by lia.
      rewrite Qpow2_add, rounding_unit_Qpow2, Qpow2_add.
      apply Qmult_le_l; [reflexivity |]. unfold X.
      apply Qmult_le_compat_r; [| apply Qlt_le_weak, Qpow2_pos].
      rewrite Qpow2_inject by lia. rewrite <- Zle_Qle. exact Hlo. }
    split; lra.
Qed.

End RationalValues.

(** ** One operation of the source on doubles: value and error *)

Lemma valid_binary_finite (s : bool) (m : positive) (e : Z) :
  valid_binary (S754_finite s m e) = true ->
  fexp prec emax (Zpos (digits2_pos m) + e) = e /\ -1074 <= e <= 971.
Proof.
  cbn [SpecFloat.valid_binary]. unfold bounded, canonical_mantissa.
  intros H. apply andb_true_iff in H. destruct H as [Hc Hb].
  apply Z.eqb_eq in Hc. apply Z.leb_le in Hb. change (emax - prec) with 971 in Hb.
  split; [exact Hc |]. rewrite fexp_binary64 in Hc. lia.
Qed.

Lemma shl_align_fst (m : positive) (e e' : Z) :
  e' <= e -> Zpos (fst (shl_align m e e')) = Zpos m * 2 ^ (e - e').
Proof.
  intros He. unfold shl_align.
  destruct (e' - e) as [| p | p] eqn:Hn; cbn [fst]; try lia.
  - replace (e - e') with 0 by lia. lia.
  - rewrite Pos_iter_xO. do 2 f_equal. lia.
Qed.

Lemma SFsub_add_opp (a b : spec_float) :
  SFsub prec emax a b = SFadd prec emax a (SFopp b).
Proof.
  destruct a as [sa | sa | | sa ma ea], b as [sb | sb | | sb mb eb];
    cbn [SFsub SFadd SFopp]; try reflexivity;
    destruct sa, sb; reflexivity.
Qed.

Lemma valid_binary_opp (a : spec_float) :
  valid_binary a = true -> valid_binary (SFopp a) = true.
Proof. destruct a; intros H; exact H. Qed.

Section OperationValues.
Local Open Scope Q_scope.

Lemma SFvalue_opp (a : spec_float) (va : Q) :
  SFvalue a = Some va ->
  exists v : Q, SFvalue (SFopp a) = Some v /\ v == - va.
Proof.
  destruct a as [sa | sa | | sa ma ea]; cbn [SFvalue SFopp]; intros [= <-];
    eexists; (split; [reflexivity |]).
  - reflexivity.
  - destruct sa; cbn [negb sign_of]; ring.
Qed.

(** The signed sum of two aligned mantissas, rounded. *)
Lemma binary_normalize_value (M ez : Z) (B : Q) :
  (-1074 <= ez)%Z ->
  - B <= inject_Z M * Qpow2 ez <= B -> B <= Qpow2 1022 ->
  exists v : Q,
    SFvalue (binary_normalize prec emax M ez false) = Some v
    /\ - (rounding_unit * B) <= v - inject_Z M * Qpow2 ez <= rounding_unit * B.
Proof.
  intros Hez HB Hbig.
  assert (HB0 : 0 <= B) by lra.
  assert (Hu : 0 <= rounding_unit * B)
    by (apply Qmult_le_0_compat; [discriminate | exact HB0]).
  destruct M as [| p | p]; cbn [binary_normalize].
  - exists 0. split; [reflexivity |]. change (inject_Z 0) with 0. lra.
  - set (X := inject_Z (Zpos p) * Qpow2 ez) in *.
    assert (Hd : (Zpos (digits2_pos p) + ez <= 1023)%Z).
    { pose proof (digits2_pos_bounds p) as [Hlo _].
      assert (H : Qpow2 (Zpos (digits2_pos p) - 1 + ez) <= Qpow2 1022).
      { apply Qle_trans with X; [| lra].
        rewrite Qpow2_add. unfold X.
        apply Qmult_le_compat_r; [| apply Qlt_le_weak, Qpow2_pos].
        rewrite Qpow2_inject by lia. rewrite <- Zle_Qle. exact Hlo. }
      apply Qpow2_le_inv in H. lia. }
    destruct (binary_round_value false p ez Hez Hd) as (v & w & Ev & Hv & Hw).
    fold X in Hw. cbn [sign_of] in Hv.
    assert (HuX : rounding_unit * X <= rounding_unit * B)
      by (apply Qmult_le_l; [reflexivity | lra]).
    exists v. split; [exact Ev |]. rewrite Hv. lra.
  - set (X := inject_Z (Zpos p) * Qpow2 ez).
    assert (EX : inject_Z (Zneg p) * Qpow2 ez == - X).
    { unfold X. change (Zneg p) with (- Zpos p)%Z. rewrite inject_Z_opp. ring. }
    rewrite EX in HB.
    assert (Hd : (Zpos (digits2_pos p) + ez <= 1023)%Z).
    { pose proof (digits2_pos_bounds p) as [Hlo _].
      assert (H : Qpow2 (Zpos (digits2_pos p) - 1 + ez) <= Qpow2 1022).
      { apply Qle_trans with X; [| lra].
        rewrite Qpow2_add. unfold X.
        apply Qmult_le_compat_r; [| apply Qlt_le_weak, Qpow2_pos].
        rewrite Qpow2_inject by lia. rewrite <- Zle_Qle. exact Hlo. }
      apply Qpow2_le_inv in H. lia. }
    destruct (binary_round_value true p ez Hez Hd) as (v & w & Ev & Hv & Hw).
    fold X in Hw. cbn [sign_of] in Hv.
    assert (HuX : rounding_unit * X <= rounding_unit * B)
      by (apply Qmult_le_l; [reflexivity | lra]).
    exists v. split; [exact Ev |]. rewrite EX, Hv. lra.
Qed.

(** Addition: the sum of the values, within the fraction [2^-52] of any bound
    [B] on its magnitude, up to [2^1022]. *)
Lemma SFadd_value (a b : spec_float) (va vb B : Q) :
  valid_binary a = true -> valid_binary b = true ->
  SFvalue a = Some va -> SFvalue b = Some vb ->
  - B <= va + vb <= B -> B <= Qpow2 1022 ->
  exists v : Q,
    SFvalue (SFadd prec emax a b) = Some v
    /\ - (rounding_unit * B) <= v - (va + vb) <= rounding_unit * B.
Proof.
  intros Ha Hb Ea Eb HB Hbig.
  assert (HB0 : 0 <= B) by lra.
  assert (Hu : 0 <= rounding_unit * B)
    by (apply Qmult_le_0_compat; [discriminate | exact HB0]).
  destruct a as [sa | sa | | sa ma ea], b as [sb | sb | | sb mb eb];
    try discriminate Ea; try discriminate Eb;
    cbn [SFvalue] in Ea, Eb; injection Ea as <-; injection Eb as <-.
  - (* two zeros *)
    exists 0. split; [destruct sa, sb; reflexivity | lra].
  - (* a zero and a finite number *)
    cbn [SFadd]. eexists. split; [reflexivity | lra].
  - cbn [SFadd]. eexists. split; [reflexivity | lra].
  - (* two finite numbers *)
    apply valid_binary_finite in Ha, Hb.
    destruct Ha as [_ Hea], Hb as [_ Heb].
    cbn [SFadd].
    set (ez := Z.min ea eb).
    rewrite !shl_align_fst by (unfold ez; lia).
    set (M := (cond_Zopp sa (Zpos ma * 2 ^ (ea - ez))
               + cond_Zopp sb (Zpos mb * 2 ^ (eb - ez)))%Z).
    assert (EM : inject_Z M * Qpow2 ez
                 == sign_of sa * (inject_Z (Zpos ma) * Qpow2 ea)
                    + sign_of sb * (inject_Z (Zpos mb) * Qpow2 eb)).
    { unfold M. rewrite inject_Z_plus.
      assert (Hc : forall (s : bool) (z : Z),
                inject_Z (cond_Zopp s z) == sign_of s * inject_Z z).
      { intros [|] z; cbn [cond_Zopp sign_of]; [rewrite inject_Z_opp |]; ring. }
      rewrite !Hc, !inject_Z_mult.
      rewrite <- !Qpow2_inject by (unfold ez; lia).
      replace ea with ((ea - ez) + ez)%Z at 2 by lia.
      replace eb with ((eb - ez) + ez)%Z at 2 by lia.
      rewrite !Qpow2_add. ring. }
    rewrite <- EM in HB.
    destruct (binary_normalize_value M ez B ltac:(unfold ez; lia) HB Hbig)
      as (v & Ev & Hv).
    exists v. split; [exact Ev |]. rewrite <- EM. exact Hv.
Qed.

(** Subtraction, likewise. *)
Lemma SFsub_value (a b : spec_float) (va vb B : Q) :
  valid_binary a = true -> valid_binary b = true ->
  SFvalue a = Some va -> SFvalue b = Some vb ->
  - B <= va - vb <= B -> B <= Qpow2 1022 ->
  exists v : Q,
    SFvalue (SFsub prec emax a b) = Some v
    /\ - (rounding_unit * B) <= v - (va - vb) <= rounding_unit * B.
Proof.
  intros Ha Hb Ea Eb HB Hbig. rewrite SFsub_add_opp.
  destruct (SFvalue_opp b vb Eb) as (nb & Enb & Hnb).
  destruct (SFadd_value a (SFopp b) va nb B Ha (valid_binary_opp b Hb) Ea Enb)
    as (v & Ev & Hv); [rewrite Hnb; lra | exact Hbig |].
  exists v. split; [exact Ev |]. rewrite Hnb in Hv. lra.
Qed.

(** The double -1. *)
Lemma Prim2SF_m1 :
  Prim2SF (-1)%float = S754_finite true 4503599627370496 (-52).
Proof. vm_compute. reflexivity. Qed.

(** Multiplication by -1 changes the sign and nothing else. *)
Lemma SFmul_m1 (a : spec_float) :
  valid_binary a = true ->
  SFmul prec emax a (S754_finite true 4503599627370496 (-52))
  = match a with
    | S754_nan => S754_nan
    | S754_infinity s => S754_infinity (xorb s true)
    | S754_zero s => S754_zero (xorb s true)
    | S754_finite s m e => S754_finite (xorb s true) m e
    end.
Proof.
  intros Ha. destruct a as [sa | sa | | sa ma ea]; cbn [SFmul]; try reflexivity.
  apply valid_binary_finite in Ha. destruct Ha as [Hcan Hea].
  pose proof (digits2_pos_bounds ma) as [Hlo Hhi].
  assert (Hm : Zpos (ma * 4503599627370496) = (Zpos ma * 2 ^ 52)%Z) by reflexivity.
  assert (Hd : Zpos (digits2_pos (ma * 4503599627370496))
               = (Zpos (digits2_pos ma) + 52)%Z).
  { apply digits2_pos_unique. rewrite Hm.
    replace (Zpos (digits2_pos ma) + 52 - 1)%Z
      with (Zpos (digits2_pos ma) - 1 + 52)%Z by lia.
    rewrite !Z.pow_add_r by lia. lia. }
  unfold binary_round_aux, shr_fexp.
  cbn [Zdigits2 shr_record_of_loc]. rewrite Hd.
  replace (Zpos (digits2_pos ma) + 52 + (ea + -52))%Z
    with (Zpos (digits2_pos ma) + ea)%Z by lia.
  rewrite Hcan.
  replace (ea - (ea + -52))%Z with 52%Z by lia.
  cbn [shr]. rewrite Hm.
  rewrite (iter_shr_1_exact 52 (Zpos ma)) by lia.
  cbn [shr_m loc_of_shr_record round_nearest_even Zdigits2 shr_record_of_loc].
  replace (ea + -52 + 52)%Z with ea by lia.
  rewrite Hcan, Z.sub_diag. cbn [shr shr_m].
  change (emax - prec)%Z with 971%Z.
  destruct (Z.leb_spec ea 971); [reflexivity | lia].
Qed.

(** The operations of the source on doubles that have values. *)

Lemma double_add_value (a b : float) (va vb B : Q) :
  double_value a = Some va -> double_value b = Some vb ->
  - B <= va + vb <= B -> B <= Qpow2 1022 ->
  exists v : Q,
    double_value (a + b)%float = Some v
    /\ - (rounding_unit * B) <= v - (va + vb) <= rounding_unit * B.
Proof.
  unfold double_value. intros Ea Eb HB Hbig. rewrite FloatAxioms.add_spec.
  apply SFadd_value; auto using Prim2SF_valid.
Qed.

Lemma double_sub_value (a b : float) (va vb B : Q) :
  double_value a = Some va -> double_value b = Some vb ->
  - B <= va - vb <= B -> B <= Qpow2 1022 ->
  exists v : Q,
    double_value (a - b)%float = Some v
    /\ - (rounding_unit * B) <= v - (va - vb) <= rounding_unit * B.
Proof.
  unfold double_value. intros Ea Eb HB Hbig. rewrite FloatAxioms.sub_spec.
  apply SFsub_value; auto using Prim2SF_valid.
Qed.

Lemma double_negate_value (a : float) (va : Q) :
  double_value a = Some va ->
  exists v : Q, double_value (a * (-1))%float = Some v /\ v == - va.
Proof.
  unfold double_value. intros Ea. rewrite FloatAxioms.mul_spec, Prim2SF_m1.
  unfold SF64mul. rewrite SFmul_m1 by apply Prim2SF_valid.
  destruct (Prim2SF a) as [sa | sa | | sa ma ea]; try discriminate Ea;
    cbn [SFvalue] in *; injection Ea as <-; eexists; (split; [reflexivity |]).
  - reflexivity.
  - destruct sa; cbn [xorb sign_of]; ring.
Qed.

End OperationValues.

(** ** Round trips on doubles, within tolerance *)

(** The values of 0.75 and of -0.1 (the double nearest to it). *)
Example double_value_examples :
  (exists q : Q, double_value 0.75%float = Some q /\ (q == 3 # 4)%Q)
  /\ (exists q : Q,
        double_value (-0x1.999999999999ap-4)%float = Some q
        /\ (q == - (3602879701896397 # 36028797018963968))%Q).
Proof. split; eexists; (split; [vm_compute; reflexivity | reflexivity]). Qed.

Section RoundTrips.
Local Open Scope Q_scope.

Lemma bounded_by_value (B : Q) (v : float) :
  bounded_by B v = true ->
  exists q : Q, double_value v = Some q /\ - B <= q <= B.
Proof.
  unfold bounded_by. destruct (double_value v) as [q |]; [| discriminate].
  intros H. apply andb_true_iff in H. destruct H as [H1 H2].
  apply Qle_bool_iff in H1, H2. exists q. split; [reflexivity | split; assumption].
Qed.

Lemma close_to_values (tol : Q) (a b : float) (qa qb : Q) :
  double_value a = Some qa -> double_value b = Some qb ->
  - tol <= qb - qa <= tol -> close_to tol a b = true.
Proof.
  intros Ea Eb [H1 H2]. unfold close_to. rewrite Ea, Eb.
  apply andb_true_iff. split; now apply Qle_bool_iff.
Qed.

Lemma largest_bound_room : 4 * largest_bound <= Qpow2 1022.
Proof.
  unfold largest_bound. replace 1022%Z with (2 + 1020)%Z by reflexivity.
  rewrite Qpow2_add. change (Qpow2 2) with 4. apply Qle_refl.
Qed.

(** Bounds [H : - b <= q <= b] for the next operation, found by [lra]. *)
Ltac next_bound := unfold rounding_unit in *; split; lra.

(** On doubles of magnitude at most [B], reflecting twice about the same axis
    gives the coordinate back within [B * 2^-48]. *)
Lemma reflect_twice_close (B : Q) (a v : float) :
  Qle_bool B largest_bound = true ->
  bounded_by B a = true -> bounded_by B v = true ->
  close_to (tolerance B) v
    (SPACE_REFLECT_POINT (SPACE_REFLECT_POINT v a) a) = true.
Proof.
  intros HB Ha Hv. apply Qle_bool_iff in HB.
  pose proof largest_bound_room as Hroom.
  apply bounded_by_value in Ha, Hv.
  destruct Ha as (qa & Ea & Ha), Hv as (qv & Ev & Hv).
  assert (H4 : 4 * B <= Qpow2 1022) by lra.
  unfold SPACE_REFLECT_POINT.
  cbn [pos_sub pos_mul pos_add lit_m1 double_pos].
  destruct (double_sub_value v a qv qa (4 * B) Ev Ea ltac:(split; lra) H4)
    as (q1 & E1 & H1).
  destruct (double_negate_value _ q1 E1) as (q2 & E2 & H2).
  destruct (double_add_value _ a q2 qa (4 * B) E2 Ea ltac:(next_bound) H4)
    as (q3 & E3 & H3).
  destruct (double_sub_value _ a q3 qa (4 * B) E3 Ea ltac:(next_bound) H4)
    as (q4 & E4 & H4').
  destruct (double_negate_value _ q4 E4) as (q5 & E5 & H5).
  destruct (double_add_value _ a q5 qa (4 * B) E5 Ea ltac:(next_bound) H4)
    as (q6 & E6 & H6).
  apply (close_to_values _ _ _ qv q6 Ev E6).
  unfold tolerance, rounding_unit in *. split; lra.
Qed.

(** Likewise for the two rotations about the same origin. *)
Lemma rotate_c_cc_close (B : Q) (ox oy a b : float) :
  Qle_bool B largest_bound = true ->
  bounded_by B ox = true -> bounded_by B oy = true ->
  bounded_by B a = true -> bounded_by B b = true ->
  close_to (tolerance B) a (rotate_c_cc_x ox oy a) = true
  /\ close_to (tolerance B) b (rotate_c_cc_y ox oy b) = true.
Proof.
  intros HB Hox Hoy Ha Hb. apply Qle_bool_iff in HB.
  pose proof largest_bound_room as Hroom.
  apply bounded_by_value in Hox, Hoy, Ha, Hb.
  destruct Hox as (qox & Eox & Hox), Hoy as (qoy & Eoy & Hoy),
    Ha as (qa & Ea & Ha), Hb as (qb & Eb & Hb).
  assert (H4 : 4 * B <= Qpow2 1022) by lra.
  unfold rotate_c_cc_x, rotate_c_cc_y. split.
  - destruct (double_sub_value a ox qa qox (4 * B) Ea Eox ltac:(split; lra) H4)
      as (q1 & E1 & H1).
    destruct (double_add_value _ oy q1 qoy (4 * B) E1 Eoy ltac:(next_bound) H4)
      as (q2 & E2 & H2).
    destruct (double_sub_value _ oy q2 qoy (4 * B) E2 Eoy ltac:(next_bound) H4)
      as (q3 & E3 & H3).
    destruct (double_add_value _ ox q3 qox (4 * B) E3 Eox ltac:(next_bound) H4)
      as (q4 & E4 & H4').
    apply (close_to_values _ _ _ qa q4 Ea E4).
    unfold tolerance, rounding_unit in *. split; lra.
  - destruct (double_sub_value b oy qb qoy (4 * B) Eb Eoy ltac:(split; lra) H4)
      as (q1 & E1 & H1).
    destruct (double_negate_value _ q1 E1) as (q2 & E2 & H2).
    destruct (double_add_value _ ox q2 qox (4 * B) E2 Eox ltac:(next_bound) H4)
      as (q3 & E3 & H3).
    destruct (double_sub_value _ ox q3 qox (4 * B) E3 Eox ltac:(next_bound) H4)
      as (q4 & E4 & H4').
    destruct (double_negate_value _ q4 E4) as (q5 & E5 & H5).
    destruct (double_add_value _ oy q5 qoy (4 * B) E5 Eoy ltac:(next_bound) H4)
      as (q6 & E6 & H6).
    apply (close_to_values _ _ _ qb q6 Eb E6).
    unfold tolerance, rounding_unit in *. split; lra.
Qed.

End RoundTrips.

Lemma rotate_c_cc_point (origin p : space_vec2 float) :
  SPACE_ROTATE_POINT_ABOUT_ORIGIN
    (SPACE_ROTATE_POINT_ABOUT_ORIGIN p member_x origin) member_y origin
  = POINT_AT (rotate_c_cc_x (x origin) (y origin) (x p))
             (rotate_c_cc_y (x origin) (y origin) (y p)).
Proof. destruct p as [a b], origin as [ox oy]. reflexivity. Qed.

(** C8 (amended): on doubles, for every finite point sequence and every axis
    value whose x coordinates and axis have magnitude at most [B], for any
    [B] up to [2^1020], applying [space_reflect_y] twice with the same axis
    returns every x coordinate to within [B * 2^-48] of its original value,
    and leaves every y coordinate as it is, bit for bit, after each
    application. *)
Theorem space_reflect_y_twice_close (arr : list (space_vec2 float))
    (axis : float) (B : Q) :
  Qle_bool B largest_bound = true ->
  bounded_by B axis = true ->
  Forall (fun p => bounded_by B (x p) = true) arr ->
  exists once twice : list (space_vec2 float),
    space_reflect_y arr (Z.of_nat (length arr)) axis = Done once
    /\ space_reflect_y once (Z.of_nat (length arr)) axis = Done twice
    /\ map y once = map y arr
    /\ map y twice = map y arr
    /\ Forall2 (fun p q => close_to (tolerance B) (x p) (x q) = true)
         arr twice.
Proof.
  intros HB Haxis Harr.
  exists (map (reflect_y_point axis) arr),
    (map (reflect_y_point axis) (map (reflect_y_point axis) arr)).
  split; [| split; [| split; [| split]]].
  - now apply space_reflect_y_whole.
  - apply space_reflect_y_whole. now rewrite length_map.
  - rewrite map_map. apply map_ext. intros [a b]. reflexivity.
  - rewrite !map_map. apply map_ext. intros [a b]. reflexivity.
  - induction Harr as [| p arr Hp Harr IH]; cbn [map]; constructor.
    + destruct p as [a b]. cbn [reflect_y_point x y].
      now apply reflect_twice_close.
    + exact IH.
Qed.

(** The theorem on the point (0.1, 0) and the axis 0.5, with [B = 1]. *)
Lemma space_reflect_y_twice_close_unit_square :
  exists once twice : list (space_vec2 float),
    space_reflect_y [POINT_AT 0x1.999999999999ap-4%float 0%float] (Z.of_nat 1) 0.5%float
    = Done once
    /\ space_reflect_y once (Z.of_nat 1) 0.5%float = Done twice
    /\ map y once = map y [POINT_AT 0x1.999999999999ap-4%float 0%float]
    /\ map y twice = map y [POINT_AT 0x1.999999999999ap-4%float 0%float]
    /\ Forall2 (fun p q => close_to (tolerance 1) (x p) (x q) = true)
         [POINT_AT 0x1.999999999999ap-4%float 0%float] twice.
Proof.
  apply (space_reflect_y_twice_close [POINT_AT 0x1.999999999999ap-4%float 0%float] 0.5%float 1).
  - vm_compute. reflexivity.
  - vm_compute. reflexivity.
  - repeat constructor; vm_compute; reflexivity.
Defined.

(** C8, as stated, fails on doubles by more than rounding.  Reflecting the
    point (1, 0) twice about the axis [2^60] yields the x coordinate 0: the
    first subtraction absorbs the 1.  Reflecting the largest double twice
    about its opposite overflows, and the x coordinate comes back as
    infinity, which is close to no double. *)
Lemma space_reflect_y_twice_overflows :
  (once <- space_reflect_y [POINT_AT 1%float 0%float] 1 0x1p+60%float ;;
   space_reflect_y once 1 0x1p+60%float)
    = Done [POINT_AT 0%float 0%float]
  /\ (once <- space_reflect_y
                [POINT_AT 0x1.fffffffffffffp+1023%float 0%float] 1
                (-0x1.fffffffffffffp+1023)%float ;;
      space_reflect_y once 1 (-0x1.fffffffffffffp+1023)%float)
     = Done [POINT_AT infinity 0%float]
  /\ (forall tol : Q,
        close_to tol 0x1.fffffffffffffp+1023%float infinity = false).
Proof.
  split; [vm_compute; reflexivity |].
  split; [vm_compute; reflexivity |].
  intros tol. unfold close_to.
  replace (double_value infinity) with (@None Q) by (vm_compute; reflexivity).
  destruct (double_value _); reflexivity.
Qed.

(** C9 (amended): on doubles, for every finite point sequence and every
    origin whose coordinates have magnitude at most [B], for any [B] up to
    [2^1020], [space_rotate_c] followed by [space_rotate_cc] about the same
    origin returns every coordinate of every point to within [B * 2^-48] of
    its original value. *)
Theorem space_rotate_c_cc_close (arr : list (space_vec2 float))
    (origin : space_vec2 float) (B : Q) :
  Qle_bool B largest_bound = true ->
  bounded_by B (x origin) = true -> bounded_by B (y origin) = true ->
  Forall (fun p => bounded_by B (x p) = true /\ bounded_by B (y p) = true)
    arr ->
  exists turned back : list (space_vec2 float),
    space_rotate_c arr (Z.of_nat (length arr)) origin = Done turned
    /\ space_rotate_cc turned (Z.of_nat (length arr)) origin = Done back
    /\ Forall2 (fun p q => close_to (tolerance B) (x p) (x q) = true
                           /\ close_to (tolerance B) (y p) (y q) = true)
         arr back.
Proof.
  intros HB Hox Hoy Harr.
  exists (map (fun p => SPACE_ROTATE_POINT_ABOUT_ORIGIN p member_x origin) arr),
    (map (fun p => SPACE_ROTATE_POINT_ABOUT_ORIGIN p member_y origin)
         (map (fun p => SPACE_ROTATE_POINT_ABOUT_ORIGIN p member_x origin) arr)).
  split; [| split].
  - now apply space_rotate_c_whole.
  - apply space_rotate_cc_whole. now rewrite length_map.
  - induction Harr as [| p arr [Hpx Hpy] Harr IH]; cbn [map]; constructor.
    + rewrite rotate_c_cc_point. cbn [x y].
      now apply rotate_c_cc_close.
    + exact IH.
Qed.

(** The theorem on the point (0.1, 0.2) and the origin (0.5, 0.5), with
    [B = 1]. *)
Lemma space_rotate_c_cc_close_unit_square :
  exists turned back : list (space_vec2 float),
    space_rotate_c [POINT_AT 0x1.999999999999ap-4%float 0x1.999999999999ap-3%float] (Z.of_nat 1)
      (POINT_AT 0.5%float 0.5%float) = Done turned
    /\ space_rotate_cc turned (Z.of_nat 1) (POINT_AT 0.5%float 0.5%float)
       = Done back
    /\ Forall2 (fun p q => close_to (tolerance 1) (x p) (x q) = true
                           /\ close_to (tolerance 1) (y p) (y q) = true)
         [POINT_AT 0x1.999999999999ap-4%float 0x1.999999999999ap-3%float] back.
Proof.
  apply (space_rotate_c_cc_close [POINT_AT 0x1.999999999999ap-4%float 0x1.999999999999ap-3%float]
           (POINT_AT 0.5%float 0.5%float) 1).
  - vm_compute. reflexivity.
  - vm_compute. reflexivity.
  - vm_compute. reflexivity.
  - repeat constructor; vm_compute; reflexivity.
Defined.

(** C9, as stated, fails on doubles by more than rounding.  Rotating the
    point (1, 0) clockwise and then counter-clockwise about ([2^60], 0)
    yields the x coordinate 0: the first subtraction absorbs the 1.  Rotating
    the point (largest double, 0) clockwise and then counter-clockwise about
    (minus the largest double, 0) overflows, and the x coordinate comes back
    as infinity, which is close to no double. *)
Lemma space_rotate_c_cc_overflows :
  (turned <- space_rotate_c [POINT_AT 1%float 0%float] 1
               (POINT_AT 0x1p+60%float 0%float) ;;
   space_rotate_cc turned 1 (POINT_AT 0x1p+60%float 0%float))
    = Done [POINT_AT 0%float 0%float]
  /\ (turned <- space_rotate_c
                  [POINT_AT 0x1.fffffffffffffp+1023%float 0%float] 1
                  (POINT_AT (-0x1.fffffffffffffp+1023)%float 0%float) ;;
      space_rotate_cc turned 1
        (POINT_AT (-0x1.fffffffffffffp+1023)%float 0%float))
     = Done [POINT_AT infinity 0%float]
  /\ (forall tol : Q,
        close_to tol 0x1.fffffffffffffp+1023%float infinity = false).
Proof.
  split; [vm_compute; reflexivity |].
  split; [vm_compute; reflexivity |].
  intros tol. unfold close_to.
  replace (double_value infinity) with (@None Q) by (vm_compute; reflexivity).
  destruct (double_value _); reflexivity.
Qed.
